(** * lcanalyzer.models: lightcurve statistics and normalisation

    A shallow embedding of [src/lcanalyzer/models.py].  The module is a thin
    layer over pandas, so the file first fixes the part of pandas the five
    functions use (column selection, the NaN-skipping reductions, scalar
    broadcasting, [fillna], [DataFrame.from_records]) and then transcribes
    the functions line by line.

    Scope of the model.
    - The functions are modelled twice: on tables of float64 columns
      ([DataFrame], [normalize_lc], ...), and on tables whose columns are
      int64 or float64 ([Mixed.Table], [Mixed.normalize_lc], ...), where
      int64 subtraction wraps around modulo 2^64.  Columns of other dtypes
      are not represented, so the only exception the model can raise is
      [KeyError].
    - The arithmetic is abstracted by the class [Dtype], with three
      instances.  [Exact.xfloat] has the IEEE special values (NaN, the two
      infinities) around exact rationals, without rounding or overflow.
      [Rounded] rounds the result of every exact operation and may overflow
      to an infinity; the theorems on it hold for every rounding that keeps
      the order, 0 and 1, among them [Rounded.binary64], IEEE 754's
      round-to-nearest for binary64 written out on the rationals.
      [Binary64] is the hardware binary64 arithmetic, on which the
      definitions can be run; that it computes what [Rounded.binary64]
      computes is checked on examples, not proved.  [Exact] and [Rounded]
      have one zero, without a sign. *)

From Stdlib Require Import QArith Qround Qabs Lqa Qcanon PrimFloat FloatOps SpecFloat.
From stdpp Require Import numbers strings gmap fin_maps list sorting.

(** ** Exceptions *)

Inductive exn : Type :=
  | KeyError (key : string).

Inductive res (A : Type) : Type :=
  | Ok (a : A)
  | Raise (e : exn).
Arguments Ok {A} a.
Arguments Raise {A} e.

Definition res_bind {A B} (m : res A) (k : A → res B) : res B :=
  match m with
  | Ok a => k a
  | Raise e => Raise e
  end.

Notation "'let!' x ':=' m 'in' k" := (res_bind m (fun x => k))
  (at level 10, x name, m at level 100, k at level 200).

(** ** The numeric dtype *)

Class Dtype (F : Type) : Type := {
  f_nan : F;
  f_zero : F;
  f_one : F;
  f_isnan : F → bool;
  f_add : F → F → F;
  f_sub : F → F → F;
  f_div : F → F → F;
  (** IEEE comparisons: both are false as soon as one side is NaN. *)
  f_ltb : F → F → bool;
  f_leb : F → F → bool;
}.

(** The number of rows as a float.  Counting up by one is exact below 2^53. *)
Definition f_of_nat `{Dtype F} (n : nat) : F :=
  Nat.iter n (λ x, f_add x f_one) f_zero.

(** *** Exact instance *)

Module Exact.

Inductive xfloat : Type :=
  | NaN
  | Inf (neg : bool)
  | Num (q : Qc).

Definition zeroQ : Qc := Q2Qc 0.
Definition oneQ : Qc := Q2Qc 1.

Definition isnan (x : xfloat) : bool :=
  match x with NaN => true | _ => false end.

Definition opp (x : xfloat) : xfloat :=
  match x with
  | NaN => NaN
  | Inf s => Inf (negb s)
  | Num q => Num (- q)%Qc
  end.

Definition add (x y : xfloat) : xfloat :=
  match x, y with
  | NaN, _ | _, NaN => NaN
  | Inf a, Inf b => if Bool.eqb a b then Inf a else NaN
  | Inf a, Num _ => Inf a
  | Num _, Inf b => Inf b
  | Num p, Num q => Num (p + q)%Qc
  end.

Definition sub (x y : xfloat) : xfloat := add x (opp y).

Definition negQ (q : Qc) : bool := bool_decide (q < zeroQ)%Qc.

(** A zero divisor counts as +0: the model has no signed zero. *)
Definition div (x y : xfloat) : xfloat :=
  match x, y with
  | NaN, _ | _, NaN => NaN
  | Inf _, Inf _ => NaN
  | Inf a, Num q => Inf (xorb a (negQ q))
  | Num _, Inf _ => Num zeroQ
  | Num p, Num q =>
      if bool_decide (q = zeroQ) then
        if bool_decide (p = zeroQ) then NaN else Inf (negQ p)
      else Num (p / q)%Qc
  end.

Definition ltb (x y : xfloat) : bool :=
  match x, y with
  | NaN, _ | _, NaN => false
  | Inf a, Inf b => a && negb b
  | Inf a, Num _ => a
  | Num _, Inf b => negb b
  | Num p, Num q => bool_decide (p < q)%Qc
  end.

Definition leb (x y : xfloat) : bool :=
  match x, y with
  | NaN, _ | _, NaN => false
  | Inf a, Inf b => a || negb b
  | Inf a, Num _ => a
  | Num _, Inf b => negb b
  | Num p, Num q => bool_decide (p ≤ q)%Qc
  end.

#[global] Instance xfloat_dtype : Dtype xfloat := {|
  f_nan := NaN;
  f_zero := Num zeroQ;
  f_one := Num oneQ;
  f_isnan := isnan;
  f_add := add;
  f_sub := sub;
  f_div := div;
  f_ltb := ltb;
  f_leb := leb;
|}.

(** Integer and fraction literals for examples. *)
Definition z (n : Z) : xfloat := Num (Q2Qc (inject_Z n)).
Definition frac (n : Z) (d : positive) : xfloat := Num (Q2Qc (n # d)).

End Exact.

(** *** binary64 instance *)

Module Binary64.

#[global] Instance float_dtype : Dtype float := {|
  f_nan := PrimFloat.nan;
  f_zero := PrimFloat.zero;
  f_one := PrimFloat.one;
  f_isnan := PrimFloat.is_nan;
  f_add := PrimFloat.add;
  f_sub := PrimFloat.sub;
  f_div := PrimFloat.div;
  f_ltb := PrimFloat.ltb;
  f_leb := PrimFloat.leb;
|}.

End Binary64.

(** ** The pandas operations used by the module *)

(** A Series is the list of its values in row order (RangeIndex). *)
Abbreviation Series F := (list F).

Section pandas.
Context {F : Type} `{!Dtype F}.

Definition notna (x : F) : bool := negb (f_isnan x).

Definition dropna (s : Series F) : Series F := List.filter notna s.

(** [Series.fillna(value)] *)
Definition fillna (s : Series F) (value : F) : Series F :=
  (λ x, if f_isnan x then value else x) <$> s.

(** Reductions run with pandas' default [skipna=True]: missing values are
    left out, and a column with nothing left reduces to NaN. *)
Definition Series_max (s : Series F) : F :=
  match dropna s with
  | [] => f_nan
  | x :: r => foldl (λ m y, if f_ltb m y then y else m) x r
  end.

Definition Series_min (s : Series F) : F :=
  match dropna s with
  | [] => f_nan
  | x :: r => foldl (λ m y, if f_ltb y m then y else m) x r
  end.

(** The sum runs over the values left to right from zero, as bottleneck's
    [nanmean] does; numpy associates the additions differently, which the
    exact instance cannot see. *)
Definition Series_mean (s : Series F) : F :=
  match dropna s with
  | [] => f_nan
  | v => f_div (foldl f_add f_zero v) (f_of_nat (length v))
  end.

(** [series - scalar] and [series / scalar], element by element. *)
Definition Series_sub (s : Series F) (c : F) : Series F := (λ x, f_sub x c) <$> s.
Definition Series_div (s : Series F) (c : F) : Series F := (λ x, f_div x c) <$> s.

End pandas.

(** A DataFrame maps each column name to its column. *)
Abbreviation DataFrame F := (gmap string (Series F)).

Section frames.
Context {F : Type} `{!Dtype F}.

(** [data[mag_col]] *)
Definition getitem (data : DataFrame F) (mag_col : string) : res (Series F) :=
  match data !! mag_col with
  | Some s => Ok s
  | None => Raise (KeyError mag_col)
  end.

(** [df - scalar] broadcasts over every column of the frame. *)
Definition DataFrame_sub (df : DataFrame F) (c : F) : DataFrame F :=
  (λ s, Series_sub s c) <$> df.

End frames.

(** *** Frames with a row index

    [calc_stats] returns the frame built by [DataFrame.from_records]; its
    rows are labelled by strings and its columns are ordered, so it gets a
    record of its own. *)

Record Frame (F : Type) : Type := mkFrame {
  index : list string;
  columns : list (string * Series F);
}.
Arguments mkFrame {F} _ _.
Arguments index {F} _.
Arguments columns {F} _.

(** A Python [dict] with string keys, in insertion order. *)
Abbreviation pydict A := (list (string * A)).

Fixpoint dict_get {A} (d : pydict A) (k : string) : option A :=
  match d with
  | [] => None
  | (k', v) :: d' => if decide (k' = k) then Some v else dict_get d' k
  end.

(** [d[k] = v] *)
Fixpoint dict_set {A} (d : pydict A) (k : string) (v : A) : pydict A :=
  match d with
  | [] => [(k, v)]
  | (k', v') :: d' =>
      if decide (k' = k) then (k, v) :: d' else (k', v') :: dict_set d' k v
  end.

Definition dict_keys {A} (d : pydict A) : list string := d.*1.

(** [sorted(...)] on strings: ascending code-point order, which on the
    UTF-8 bytes of a Rocq string is the lexicographic order [String.le]. *)
Definition sorted (l : list string) : list string := merge_sort String.le l.

(** [union_indexes(indexes, sort=False)]: every label once, in order of
    first appearance. *)
Definition union_indexes (indexes : list (list string)) : list string :=
  foldl (λ acc x, if decide (x ∈ acc) then acc else acc ++ [x]) [] (mjoin indexes).

(** The position of a label in an index. *)
Fixpoint get_loc (ix : list string) (label : string) : option nat :=
  match ix with
  | [] => None
  | l :: ix' => if decide (l = label) then Some 0 else S <$> get_loc ix' label
  end.

Section from_records.
Context {F : Type} `{!Dtype F}.

(** A dict column laid out along the row index; absent labels give NaN. *)
Definition reindex (ix : list string) (d : pydict F) : Series F :=
  (λ label, default f_nan (dict_get d label)) <$> ix.

(** [pd.DataFrame.from_records(data)] for a dict of dicts and no [columns]
    argument: the column labels are [sorted(data)], the row index is the
    union of the inner keys. *)
Definition from_records (data : pydict (pydict F)) : Frame F :=
  let columns := sorted (dict_keys data) in
  let arrays := (λ k, default [] (dict_get data k)) <$> columns in
  let ix := union_indexes (dict_keys <$> arrays) in
  mkFrame ix (zip columns (reindex ix <$> arrays)).

Definition column_names (fr : Frame F) : list string := (columns fr).*1.

(** [fr.loc[row, col]] *)
Definition loc (fr : Frame F) (row col : string) : option F :=
  s ← dict_get (columns fr) col;
  i ← get_loc (index fr) row;
  s !! i.

End from_records.

(** ** models.py *)

Section models.
Context {F : Type} `{!Dtype F}.

Definition mean_mag (data : DataFrame F) (mag_col : string) : res F :=
  let! s := getitem data mag_col in Ok (Series_mean s).

Definition max_mag (data : DataFrame F) (mag_col : string) : res F :=
  let! s := getitem data mag_col in Ok (Series_max s).

Definition min_mag (data : DataFrame F) (mag_col : string) : res F :=
  let! s := getitem data mag_col in Ok (Series_min s).

(** [lc[b]] on the mapping from band names to tables *)
Definition getband (lc : gmap string (DataFrame F)) (b : string) : res (DataFrame F) :=
  match lc !! b with
  | Some t => Ok t
  | None => Raise (KeyError b)
  end.

(** The body of the [for b in bands] loop, threading [stats]. *)
Fixpoint calc_stats_loop (lc : gmap string (DataFrame F)) (bands : list string)
    (mag_col : string) (stats : pydict (pydict F)) : res (pydict (pydict F)) :=
  match bands with
  | [] => Ok stats
  | b :: bands' =>
      let stat := [] in
      let! t := getband lc b in
      let! v := max_mag t mag_col in
      let stat := dict_set stat "max" v in
      let! t := getband lc b in
      let! v := mean_mag t mag_col in
      let stat := dict_set stat "mean" v in
      let! t := getband lc b in
      let! v := min_mag t mag_col in
      let stat := dict_set stat "min" v in
      calc_stats_loop lc bands' mag_col (dict_set stats b stat)
  end.

Definition calc_stats (lc : gmap string (DataFrame F)) (bands : list string)
    (mag_col : string) : res (Frame F) :=
  let! stats := calc_stats_loop lc bands mag_col [] in
  Ok (from_records stats).

Definition normalize_lc (df : DataFrame F) (mag_col : string) : res (Series F) :=
  let! min := min_mag df mag_col in
  let! max := max_mag (DataFrame_sub df min) mag_col in
  let! col := getitem df mag_col in
  let lc := Series_div (Series_sub col min) max in
  let lc := fillna lc f_zero in
  Ok lc.

End models.

(** ** Derived forms used in the statements *)

Section derived.
Context {F : Type} `{!Dtype F}.

(** The [stat] dict the loop body builds from the magnitude column. *)
Definition stat_of (s : Series F) : pydict F :=
  [("max", Series_max s); ("mean", Series_mean s); ("min", Series_min s)].

(** What [normalize_lc] computes from the selected column. *)
Definition normalize_series (s : Series F) : Series F :=
  let min := Series_min s in
  let max := Series_max (Series_sub s min) in
  fillna (Series_div (Series_sub s min) max) f_zero.

End derived.

(** The row labels of the summary. *)
Abbreviation stat_names := ["max"; "mean"; "min"].

(** ** Vocabulary of the exact instance *)

Module ExactDefs.
Import Exact.
Local Open Scope Qc_scope.

(** Minimum and maximum of a non-empty list of rationals, folded as
    [Series_min] and [Series_max] fold. *)
Definition minQ (q : Qc) (r : list Qc) : Qc :=
  foldl (λ m y, if bool_decide (y < m) then y else m) q r.

Definition maxQ (q : Qc) (r : list Qc) : Qc :=
  foldl (λ m y, if bool_decide (m < y) then y else m) q r.

(** Entries that are numbers, and entries that are numbers or missing. *)
Definition finite (x : xfloat) : bool :=
  match x with Num _ => true | _ => false end.

Definition nan_or_finite (x : xfloat) : bool :=
  match x with Inf _ => false | _ => true end.

(** The finite values of a column, in row order. *)
Definition nums (s : Series xfloat) : list Qc :=
  omap (λ x, match x with Num q => Some q | _ => None end) s.

(** The value [normalize_lc] gives an entry of a column whose finite values
    have minimum [l] and maximum [M]. *)
Definition rescale (l M : Qc) (x : xfloat) : xfloat :=
  match x with
  | Num v => Num (if bool_decide (M = l) then 0 else (v - l) / (M - l))
  | _ => Num 0
  end.

End ExactDefs.

(** ** The cases of tests/test_models.py *)

Module Fixtures.
Import Exact.

Definition frame3 (a b c : Series xfloat) : DataFrame xfloat :=
  {[ "a" := a; "b" := b; "c" := c ]}.

Definition test_df : DataFrame xfloat :=
  frame3 [z 1; z 7; z 3] [z 5; z 8; z 4] [z 3; z 9; z 1].

Definition zeros_df : DataFrame xfloat :=
  frame3 [z 0; z 0; z 0] [z 0; z 0; z 0] [z 0; z 0; z 0].

Definition test_dict : gmap string (DataFrame xfloat) :=
  {[ "df0" := frame3 [z 8; z 0; z 2; z 7] [z 8; z 1; z 3; z 9] [z 0; z 1; z 1; z 7];
     "df1" := frame3 [z 3; z 3; z 3; z 8] [z 8; z 8; z 9; z 2] [z 2; z 0; z 8; z 5];
     "df2" := frame3 [z 8; z 7; z 4; z 6] [z 4; z 6; z 2; z 4] [z 3; z 3; z 9; z 0] ]}.

Definition test_input_df : DataFrame xfloat :=
  frame3 [z 8; z 1; z 1; z 1] [z 9; z 4; z 2; z 4] [z 1; z 1; z 4; z 1].

Definition ones_df : DataFrame xfloat :=
  frame3 [z 1; z 1; z 1; z 1] [z 1; z 1; z 1; z 1] [z 1; z 1; z 1; z 1].

(** The expected output of [test_normalize_lc], as a table. *)
Definition normalized_df : DataFrame xfloat :=
  {[ "b" := [z 1; frac 2 7; z 0; frac 2 7] ]}.

(** A column with a missing observation, a table with one row, and a table
    without rows. *)
Definition gap_df : DataFrame xfloat := {[ "b" := [z 1; NaN; z 3] ]}.
Definition one_row_df : DataFrame xfloat := {[ "b" := [z 5] ]}.
Definition empty_df : DataFrame xfloat := {[ "b" := [] ]}.

(** Three observations of 0.1 as binary64 numbers. *)
Definition tenths_df : DataFrame float :=
  {[ "b" := [0x1.999999999999ap-4; 0x1.999999999999ap-4; 0x1.999999999999ap-4]%float ]}.

End Fixtures.

(** ** Vocabulary for columns with infinite values *)

Module OrderDefs.
Import Exact.
Local Open Scope Qc_scope.

(** What a difference [x - lo] with [lo <= x] can be: missing, plus
    infinity, or a number that is not negative. *)
Definition nonneg_or_nan (y : xfloat) : Prop :=
  match y with
  | NaN => True
  | Inf neg => neg = false
  | Num q => 0 ≤ q
  end.

(** A number between 0 and 1. *)
Definition unit_interval (o : xfloat) : Prop :=
  match o with
  | Num q => 0 ≤ q ∧ q ≤ 1
  | _ => False
  end.

End OrderDefs.

Module MoreFixtures.
Import Exact.

(** A column with both infinities and a missing observation. *)
Definition wild_df : DataFrame xfloat :=
  {[ "a" := [z 0; z 0; z 0; z 0]; "b" := [z 4; Inf false; NaN; Inf true] ]}.

(** A finite column with a missing observation, and the same shifted by 10. *)
Definition obs_df : DataFrame xfloat :=
  {[ "b" := [z 12; NaN; z 15; z 11] ]}.

(** The bands of [test_dict] with other columns and one more band. *)
Definition other_dict : gmap string (DataFrame xfloat) :=
  {[ "df0" := {[ "b" := [z 8; z 1; z 3; z 9] ]};
     "df1" := {[ "b" := [z 8; z 8; z 9; z 2]; "t" := [z 0; z 1; z 2; z 3] ]};
     "df2" := {[ "b" := [z 4; z 6; z 2; z 4] ]};
     "df9" := {[ "b" := [z 1] ]} ]}.

(** A mapping with a band that lacks column b. *)
Definition lacking_dict : gmap string (DataFrame xfloat) :=
  {[ "g" := {[ "b" := [z 1; z 2] ]}; "r" := {[ "a" := [z 1; z 2] ]} ]}.

End MoreFixtures.

(** ** Tables with int64 and float64 columns

    The same functions on tables whose columns are int64 or float64, as the
    tables of tests/test_models.py are.  An int64 column is reduced to an
    int64, subtracting an int64 from it wraps around modulo 2^64, and [/]
    and [mean] convert to float64 first. *)

Module Mixed.

Definition wrap (z : Z) : Z := ((z + 2 ^ 63) mod 2 ^ 64 - 2 ^ 63)%Z.

(** The conversion of an int64 to the float type. *)
Class OfInt (F : Type) : Type := of_int : Z → F.

Inductive column (F : Type) : Type :=
  | IntCol (l : list Z)
  | FloatCol (s : Series F).
Arguments IntCol {F} l.
Arguments FloatCol {F} s.

Inductive scalar (F : Type) : Type :=
  | IntS (z : Z)
  | FloatS (x : F).
Arguments IntS {F} z.
Arguments FloatS {F} x.

Abbreviation Table F := (gmap string (column F)).

Section mixed.
Context {F : Type} `{!Dtype F} `{!OfInt F}.

Definition to_float (k : scalar F) : F :=
  match k with
  | IntS z => of_int z
  | FloatS x => x
  end.

Definition values (c : column F) : Series F :=
  match c with
  | IntCol l => of_int <$> l
  | FloatCol s => s
  end.

(** An int64 column has no missing values; reduced when empty it gives NaN. *)
Definition column_min (c : column F) : scalar F :=
  match c with
  | IntCol [] => FloatS f_nan
  | IntCol (x :: r) => IntS (foldl Z.min x r)
  | FloatCol s => FloatS (Series_min s)
  end.

Definition column_max (c : column F) : scalar F :=
  match c with
  | IntCol [] => FloatS f_nan
  | IntCol (x :: r) => IntS (foldl Z.max x r)
  | FloatCol s => FloatS (Series_max s)
  end.

Definition column_mean (c : column F) : F := Series_mean (values c).

(** [column - scalar]: int64 minus int64 stays int64 and wraps; any other
    pair is computed in float64. *)
Definition column_sub (c : column F) (k : scalar F) : column F :=
  match c, k with
  | IntCol l, IntS m => IntCol ((λ z, wrap (z - m)) <$> l)
  | _, _ => FloatCol (Series_sub (values c) (to_float k))
  end.

(** [column / scalar] is always computed in float64. *)
Definition column_div (c : column F) (k : scalar F) : Series F :=
  Series_div (values c) (to_float k).

Definition getitem (data : Table F) (mag_col : string) : res (column F) :=
  match data !! mag_col with
  | Some c => Ok c
  | None => Raise (KeyError mag_col)
  end.

Definition Table_sub (df : Table F) (k : scalar F) : Table F :=
  (λ c, column_sub c k) <$> df.

Definition mean_mag (data : Table F) (mag_col : string) : res F :=
  let! c := getitem data mag_col in Ok (column_mean c).

Definition max_mag (data : Table F) (mag_col : string) : res (scalar F) :=
  let! c := getitem data mag_col in Ok (column_max c).

Definition min_mag (data : Table F) (mag_col : string) : res (scalar F) :=
  let! c := getitem data mag_col in Ok (column_min c).

Definition normalize_lc (df : Table F) (mag_col : string) : res (Series F) :=
  let! min := min_mag df mag_col in
  let! max := max_mag (Table_sub df min) mag_col in
  let! col := getitem df mag_col in
  let lc := column_div (column_sub col min) max in
  let lc := fillna lc f_zero in
  Ok lc.

(** What [normalize_lc] computes from the selected column. *)
Definition normalize_column (col : column F) : Series F :=
  let min := column_min col in
  let max := column_max (column_sub col min) in
  fillna (column_div (column_sub col min) max) f_zero.

(** *** Scalars, for the statements *)

(** The rows of a column as scalars. *)
Definition entries (c : column F) : list (scalar F) :=
  match c with
  | IntCol l => IntS <$> l
  | FloatCol s => FloatS <$> s
  end.

(** [a - b], [a / b] and [a <= b] on two scalars, as numpy computes them. *)
Definition scalar_sub (a b : scalar F) : scalar F :=
  match a, b with
  | IntS x, IntS y => IntS (wrap (x - y))
  | _, _ => FloatS (f_sub (to_float a) (to_float b))
  end.

Definition scalar_div (a b : scalar F) : F := f_div (to_float a) (to_float b).

Definition scalar_leb (a b : scalar F) : bool :=
  match a, b with
  | IntS x, IntS y => bool_decide (x ≤ y)%Z
  | _, _ => f_leb (to_float a) (to_float b)
  end.

Definition scalar_isnan (a : scalar F) : bool :=
  match a with
  | IntS _ => false
  | FloatS x => f_isnan x
  end.

End mixed.

(** int64 to binary64: the two 32-bit halves are exact, their sum rounds
    once, to nearest. *)
Fixpoint pos_to_float (p : positive) : float :=
  match p with
  | xH => 1
  | xO p => 2 * pos_to_float p
  | xI p => 2 * pos_to_float p + 1
  end%float.

Definition half_to_float (n : Z) : float :=
  match n with
  | Zpos p => pos_to_float p
  | _ => 0%float
  end.

Definition int_to_float (z : Z) : float :=
  let a := Z.abs z in
  let m := (half_to_float (a / 2 ^ 32) * 0x1p+32 + half_to_float (a mod 2 ^ 32))%float in
  if (z <? 0)%Z then (- m)%float else m.

#[global] Instance float_of_int : OfInt float := int_to_float.

End Mixed.

(** ** Rounded arithmetic

    float64 arithmetic is the exact operation followed by a rounding of the
    finite results, which may overflow to an infinity.  [Rounded] puts a
    rounding [rnd] after the operations of [Exact]; the theorems on it
    hold for every rounding with the properties [lawful], which
    [binary64], IEEE 754's round-to-nearest, is proved to have.
    Comparisons do not round.  As in [Exact], the two zeros are one
    value. *)

Module Rounded.
Import Exact.
Local Open Scope Qc_scope.

Class Rounding : Type := rnd : Qc → xfloat.

Section arithmetic.
Context `{Rounding}.

Definition round (x : xfloat) : xfloat :=
  match x with
  | Num q => rnd q
  | _ => x
  end.

Definition add (x y : xfloat) : xfloat := round (Exact.add x y).
Definition sub (x y : xfloat) : xfloat := round (Exact.sub x y).
Definition div (x y : xfloat) : xfloat := round (Exact.div x y).

Definition dtype : Dtype xfloat := {|
  f_nan := NaN;
  f_zero := Num zeroQ;
  f_one := Num oneQ;
  f_isnan := isnan;
  f_add := add;
  f_sub := sub;
  f_div := div;
  f_ltb := ltb;
  f_leb := leb;
|}.

(** An int64 is converted by rounding it. *)
Definition int_rounded : Mixed.OfInt xfloat := λ z, rnd (Q2Qc (inject_Z z)).

(** The values the rounding leaves alone: the numbers of the format, the
    infinities and NaN. *)
Definition representable (x : xfloat) : Prop := round x = x.

End arithmetic.

(** What the theorems ask of a rounding: it keeps the order (so a rounded
    number is never NaN), it keeps 0 and 1, it keeps what it has produced,
    and the difference of two distinct numbers of the format does not round
    to 0 (gradual underflow). *)
Record lawful (R : Rounding) : Prop := {
  rnd_mono : ∀ p q, p ≤ q → leb (rnd p) (rnd q) = true;
  rnd_zero : rnd 0 = Num 0;
  rnd_one : rnd 1 = Num 1;
  rnd_idem : ∀ p q, rnd p = Num q → rnd q = Num q;
  rnd_sub_apart : ∀ p q, rnd p = Num p → rnd q = Num q → rnd (p - q) = Num 0 → p = q;
}.

(** The conversion of an int64 does not overflow (binary64 holds numbers up
    to 2^1024). *)
Definition holds_int64 (R : Rounding) : Prop :=
  ∀ z, (- 2 ^ 63 ≤ z ≤ 2 ^ 63)%Z → ∃ q, rnd (Q2Qc (inject_Z z)) = Num q.

(** The integers up to [B] in absolute value are numbers of the format
    (binary64: up to 2^53). *)
Definition exact_ints (R : Rounding) (B : Z) : Prop :=
  ∀ z, (Z.abs z ≤ B)%Z → rnd (Q2Qc (inject_Z z)) = Num (Q2Qc (inject_Z z)).

(** *** binary64 as a rounding

    IEEE 754 round-to-nearest, ties to even, for binary64.  Counted in units
    of 2^-1074, the least positive number of the format, the numbers of the
    format are the integers n * 2^k with n < 2^53 and 0 <= k, below
    2^2098. *)

(** The nearest integer, the even one of two that are equally near. *)
Definition rne (y : Q) : Z :=
  let f := Qfloor y in
  match Qcompare ((y - inject_Z f) * 2) 1 with
  | Lt => f
  | Gt => (f + 1)%Z
  | Eq => if Z.even f then f else (f + 1)%Z
  end.

(** The exponent of the spacing of the format at [x >= 0] units. *)
Definition ulp_exp (x : Q) : Z := Z.max (Z.log2 (Qfloor x) - 52) 0.

Definition round_units (x : Q) : Z :=
  (rne (x / inject_Z (2 ^ ulp_exp x)) * 2 ^ ulp_exp x)%Z.

Definition units : Q := inject_Z (2 ^ 1074).

(** The rounded absolute value of [q], in units, and the number that is
    [r] units with a sign. *)
Definition magnitude (q : Qc) : Z := round_units (Qabs q * units).

Definition signed (neg : bool) (r : Z) : Q :=
  ((if neg then - inject_Z r else inject_Z r) / units)%Q.

(** From 2^1024 = 2^2098 units on, the rounded value overflows. *)
Definition binary64 : Rounding := λ q,
  if bool_decide (2 ^ 2098 ≤ magnitude q)%Z then Inf (negQ q)
  else Num (Q2Qc (signed (negQ q) (magnitude q))).

(** The value of a hardware float, to compare the two arithmetics. *)
Definition of_float (f : float) : xfloat :=
  match Prim2SF f with
  | S754_nan => NaN
  | S754_infinity s => Inf s
  | S754_zero _ => Num 0
  | S754_finite s m e =>
      Num (Q2Qc ((if s then - inject_Z (Zpos m) else inject_Z (Zpos m)) * 2 ^ e))
  end.

(** The exact instance as a rounding that never rounds. *)
Definition exactly : Rounding := Num.

End Rounded.

(** ** Vocabulary for tables with int64 and float64 columns *)

Module MixedDefs.
Import Exact ExactDefs Mixed Rounded.

(** [fillna(0)] on one value. *)
Definition fill0 (x : xfloat) : xfloat := if isnan x then Num zeroQ else x.

Section vocabulary.
Context `{Rounding}.
#[local] Existing Instance dtype | 0.
#[local] Existing Instance int_rounded.

(** A finite number of the format, or any int64. *)
Definition number (k : scalar xfloat) : Prop :=
  match k with
  | IntS _ => True
  | FloatS x => finite x = true ∧ representable x
  end.

(** [a - b] neither wraps around nor overflows. *)
Definition sub_in_range (a b : scalar xfloat) : Prop :=
  match a, b with
  | IntS x, IntS y => wrap (x - y) = (x - y)%Z
  | _, _ => finite (f_sub (to_float a) (to_float b)) = true
  end.

(** [a - b] does not wrap around; float64 differences never do. *)
Definition no_wrap (a b : scalar xfloat) : Prop :=
  match a, b with
  | IntS x, IntS y => wrap (x - y) = (x - y)%Z
  | _, _ => True
  end.

(** The column holds the integers [os], [None] standing for NaN. *)
Definition holds_integers (col : column xfloat) (os : list (option Z)) : Prop :=
  match col with
  | IntCol l => os = Some <$> l
  | FloatCol s => s = (λ o, from_option z NaN o) <$> os
  end.

End vocabulary.

(** The sum of the absolute values. *)
Definition sum_abs (os : list (option Z)) : Z :=
  foldr (λ o a, (from_option Z.abs 0 o + a)%Z) 0%Z os.

End MixedDefs.

(** ** Tables that overflow and wrap around *)

Module EdgeFixtures.
Import Exact Mixed.

(** Two finite binary64 values whose difference is not finite. *)
Definition overflow_df : DataFrame float :=
  {[ "b" := [(- 0x1p+1023)%float; 0x1p+1023%float] ]}.

(** 1, NaN, 3; 1, +inf; and +inf, -inf in binary64. *)
Definition gap64_df : DataFrame float :=
  {[ "b" := [1%float; PrimFloat.nan; 3%float] ]}.
Definition inf64_df : DataFrame float :=
  {[ "b" := [1%float; PrimFloat.infinity] ]}.
Definition opposite64_df : DataFrame float :=
  {[ "b" := [PrimFloat.infinity; PrimFloat.neg_infinity] ]}.

(** An int64 column whose spread exceeds 2^63, what [normalize_lc] makes of
    it, and a one-row int64 table whose value is not a float64. *)
Definition wrap_df : Table float :=
  {[ "b" := IntCol [(- 2 ^ 62)%Z; (2 ^ 62)%Z; 0%Z] ]}.
Definition wrapped_df : Table float :=
  {[ "b" := FloatCol [0%float; (- 2)%float; 1%float] ]}.
Definition big_df : Table float :=
  {[ "b" := IntCol [(2 ^ 53 + 1)%Z] ]}.

(** The int64 tables of [test_normalize_lc] and [test_max_mag_integers]. *)
Definition int_input_df : Table xfloat :=
  {[ "a" := IntCol [8; 1; 1; 1]%Z; "b" := IntCol [9; 4; 2; 4]%Z;
     "c" := IntCol [1; 1; 4; 1]%Z ]}.
Definition int_test_df : Table xfloat :=
  {[ "a" := IntCol [1; 7; 3]%Z; "b" := IntCol [5; 8; 4]%Z; "c" := IntCol [3; 9; 1]%Z ]}.
Definition int_input64_df : Table float :=
  {[ "a" := IntCol [8; 1; 1; 1]%Z; "b" := IntCol [9; 4; 2; 4]%Z;
     "c" := IntCol [1; 1; 4; 1]%Z ]}.

(** A float64 table with a missing observation next to an int64 column. *)
Definition missing_df : Table xfloat :=
  {[ "a" := IntCol [0; 0; 0; 0]%Z; "b" := FloatCol [z 12; NaN; z 15; z 11] ]}.
Definition one_int_df : Table xfloat := {[ "b" := IntCol [5]%Z ]}.

(** Column b of [int_input_df] normalised, 2/7 rounded to binary64, and
    the zeros that [overflow_df] normalises to. *)
Definition two_sevenths : xfloat := Rounded.of_float 0x1.2492492492492p-2.
Definition normalized64_df : Table xfloat :=
  {[ "b" := FloatCol [z 1; two_sevenths; z 0; two_sevenths] ]}.
Definition flat64_df : DataFrame float := {[ "b" := [0%float; 0%float] ]}.

(** [tenths_df] and [overflow_df] as rationals. *)
Definition tenths_rounded_df : DataFrame xfloat :=
  {[ "b" := Rounded.of_float <$> [0x1.999999999999ap-4; 0x1.999999999999ap-4;
                                  0x1.999999999999ap-4]%float ]}.
Definition overflow_rounded_df : DataFrame xfloat :=
  {[ "b" := Rounded.of_float <$> [(- 0x1p+1023)%float; 0x1p+1023%float] ]}.

End EdgeFixtures.

(** ** Python dicts *)

Section pydict.
Context {A : Type}.
Implicit Types (d : pydict A) (k : string) (v : A).

Lemma dict_get_set d k v k' :
  dict_get (dict_set d k v) k' = if decide (k = k') then Some v else dict_get d k'.
Proof.
  induction d as [|[k0 v0] d IH]; simpl.
  - reflexivity.
  - destruct (decide (k0 = k)) as [->|Hne]; simpl.
    + destruct (decide (k = k')); reflexivity.
    + rewrite IH. destruct (decide (k0 = k')) as [->|]; [|reflexivity].
      destruct (decide (k = k')); congruence.
Qed.

Lemma dict_keys_set d k v :
  dict_keys (dict_set d k v) =
  if decide (k ∈ dict_keys d) then dict_keys d else dict_keys d ++ [k].
Proof.
  unfold dict_keys. induction d as [|[k0 v0] d IH].
  - destruct (decide (k ∈ [].*1)) as [Hin|_]; [inv Hin|done].
  - cbn [dict_set]. destruct (decide (k0 = k)) as [->|Hne].
    + destruct (decide (k ∈ ((k, v0) :: d).*1)) as [|Hn]; [done|].
      destruct Hn. rewrite fmap_cons. left.
    + rewrite !fmap_cons, IH. cbn [fst].
      destruct (decide (k ∈ d.*1)) as [Hin|Hin];
        destruct (decide (k ∈ k0 :: d.*1)) as [Hin'|Hin']; try done.
      * destruct Hin'. by right.
      * apply elem_of_cons in Hin' as [?|?]; congruence.
Qed.

Lemma dict_keys_set_elem d k v k' :
  k' ∈ dict_keys (dict_set d k v) ↔ k' = k ∨ k' ∈ dict_keys d.
Proof.
  rewrite dict_keys_set. case_decide.
  - split; [auto|]. intros [->|?]; done.
  - rewrite elem_of_app, list_elem_of_singleton. tauto.
Qed.

Lemma dict_keys_set_NoDup d k v :
  NoDup (dict_keys d) → NoDup (dict_keys (dict_set d k v)).
Proof.
  intros Hd. rewrite dict_keys_set. case_decide; [done|].
  rewrite list.NoDup_app. split_and!; [done| |apply NoDup_singleton].
  intros x Hx ->%list_elem_of_singleton. done.
Qed.

Lemma dict_get_is_Some d k : is_Some (dict_get d k) ↔ k ∈ dict_keys d.
Proof.
  unfold dict_keys. induction d as [|[k0 v0] d IH]; simpl.
  - split; [intros [? [=]]|intros Hk; inv Hk].
  - rewrite elem_of_cons. case_decide as Hk0; subst.
    + split; [by left|eauto].
    + rewrite IH. split; [by right|]. intros [?|?]; [congruence|done].
Qed.

(** A dict whose values are computed from the keys. *)
Lemma dict_get_tabulate (f : string → A) (l : list string) k :
  k ∈ l → dict_get (zip l (f <$> l)) k = Some (f k).
Proof.
  induction l as [|k0 l IH]; simpl; [intros Hin; inv Hin|].
  intros Hin. case_decide as Hk0; [congruence|].
  apply IH. apply elem_of_cons in Hin as [?|?]; [congruence|done].
Qed.

End pydict.

(** ** Row index of the summary *)

Lemma union_indexes_seen (acc : list string) (l : list string) :
  (∀ x, x ∈ l → x ∈ acc) →
  foldl (λ acc x, if decide (x ∈ acc) then acc else acc ++ [x]) acc l = acc.
Proof.
  induction l as [|x l IH]; simpl; [done|]. intros Hl.
  rewrite decide_True by set_solver. apply IH. set_solver.
Qed.

Lemma union_indexes_stat_names (indexes : list (list string)) :
  indexes ≠ [] → Forall (λ ix, ix = stat_names) indexes →
  union_indexes indexes = stat_names.
Proof.
  intros Hne Hall. destruct Hall as [|ix indexes -> Hall]; [done|].
  unfold union_indexes. simpl.
  apply union_indexes_seen. intros x [ix [Hx Hix]]%list_elem_of_join.
  rewrite List.Forall_forall in Hall.
  apply list_elem_of_In, Hall in Hix. subst ix. exact Hx.
Qed.

(** ** Sorting the column labels *)

Lemma sorted_strict (l : list string) :
  NoDup l → StronglySorted String.le l → Sorted (strict String.le) l.
Proof.
  intros Hnd Hs. induction Hs as [|x l Hl IH Hx]; [constructor|].
  apply NoDup_cons in Hnd as [Hx_notin Hnd]. constructor; [auto|].
  destruct l as [|y l]; constructor.
  pose proof (List.Forall_inv Hx) as Hxy.
  split; [done|]. intros Hyx.
  destruct Hx_notin. rewrite (anti_symm String.le x y Hxy Hyx). left.
Qed.

Lemma sorted_elem_of (l : list string) x : x ∈ sorted l ↔ x ∈ l.
Proof. unfold sorted. by rewrite merge_sort_Permutation. Qed.

Lemma sorted_ascending (l : list string) :
  NoDup l → Sorted (strict String.le) (sorted l).
Proof.
  intros Hl. apply sorted_strict.
  - unfold sorted. by rewrite merge_sort_Permutation.
  - apply StronglySorted_merge_sort; apply _.
Qed.

(** ** The summary built by [calc_stats] *)

Section summary.
Context {F : Type} `{!Dtype F}.
Implicit Types (lc : gmap string (DataFrame F)) (data : pydict (pydict F)).

Lemma calc_stats_loop_cons lc b bands mag_col stats t s :
  lc !! b = Some t → t !! mag_col = Some s →
  calc_stats_loop lc (b :: bands) mag_col stats =
  calc_stats_loop lc bands mag_col (dict_set stats b (stat_of s)).
Proof.
  intros Hb Hs. cbn [calc_stats_loop].
  unfold getband, max_mag, mean_mag, min_mag, getitem. rewrite Hb. cbn [res_bind].
  rewrite Hs. reflexivity.
Qed.

(** What the loop leaves in [stats] when every lookup succeeds. *)
Lemma calc_stats_loop_ok lc bands mag_col stats :
  (∀ b, b ∈ bands → ∃ t s, lc !! b = Some t ∧ t !! mag_col = Some s) →
  ∃ stats', calc_stats_loop lc bands mag_col stats = Ok stats'
    ∧ (∀ k, k ∈ dict_keys stats' ↔ k ∈ dict_keys stats ∨ k ∈ bands)
    ∧ (NoDup (dict_keys stats) → NoDup (dict_keys stats'))
    ∧ (∀ k, k ∉ bands → dict_get stats' k = dict_get stats k)
    ∧ (∀ b t s, b ∈ bands → lc !! b = Some t → t !! mag_col = Some s →
         dict_get stats' b = Some (stat_of s)).
Proof.
  revert stats. induction bands as [|b0 bands IH]; intros stats Hall.
  - exists stats. split_and!; [done| |done|done|].
    + intros k. rewrite elem_of_nil. tauto.
    + intros b t s Hb. inv Hb.
  - destruct (Hall b0) as (t0 & s0 & Ht0 & Hs0); [left|].
    rewrite (calc_stats_loop_cons _ _ _ _ _ t0 s0) by done.
    destruct (IH (dict_set stats b0 (stat_of s0))) as (stats' & Hrun & Hkeys & Hnd & Hout & Hin).
    { intros b Hb. apply Hall. by right. }
    exists stats'. split_and!; [done| | | |].
    + intros k. rewrite Hkeys, dict_keys_set_elem, elem_of_cons. tauto.
    + intros Hs. by apply Hnd, dict_keys_set_NoDup.
    + intros k [Hk0 Hk]%not_elem_of_cons. rewrite Hout by done.
      rewrite dict_get_set. by rewrite decide_False.
    + intros b t s Hb Ht Hs. destruct (decide (b ∈ bands)) as [Hb'|Hb'].
      * by apply (Hin b t s).
      * apply elem_of_cons in Hb as [->|?]; [|done].
        rewrite Hout by done. rewrite dict_get_set, decide_True by done.
        congruence.
Qed.

(** The loop stops at the first band that is not in the mapping. *)
Lemma calc_stats_loop_raise lc bands mag_col stats :
  (∃ b, b ∈ bands ∧ lc !! b = None) →
  ∃ k, calc_stats_loop lc bands mag_col stats = Raise (KeyError k)
       ∧ (k ∈ bands ∧ lc !! k = None ∨ k = mag_col).
Proof.
  revert stats. induction bands as [|b0 bands IH]; intros stats (b & Hb & Hnone).
  - inv Hb.
  - cbn [calc_stats_loop]. unfold getband.
    destruct (lc !! b0) as [t0|] eqn:Ht0; cbn [res_bind].
    + unfold max_mag, mean_mag, min_mag, getitem.
      destruct (t0 !! mag_col) as [s0|]; cbn [res_bind].
      * destruct (IH (dict_set stats b0 (stat_of s0))) as (k & Hk & Hwhy).
        { exists b. split; [|done]. apply elem_of_cons in Hb as [->|?]; [congruence|done]. }
        exists k. split; [exact Hk|]. destruct Hwhy as [[? ?]|?]; [left; split; [by right|done]|by right].
      * exists mag_col. eauto.
    + exists b0. split; [done|]. left. split; [left|done].
Qed.

Section from_records_facts.
Context (data : pydict (pydict F)).
Hypothesis data_NoDup : NoDup (dict_keys data).
Hypothesis data_stats : ∀ k v, dict_get data k = Some v → ∃ s, v = stat_of s.

Lemma from_records_column_names :
  column_names (from_records data) = sorted (dict_keys data).
Proof.
  unfold column_names, from_records. cbn [columns].
  apply fst_zip. by rewrite !length_fmap.
Qed.

Lemma from_records_index_nonempty :
  data ≠ [] → index (from_records data) = stat_names.
Proof.
  intros Hdata. unfold from_records. cbn [index].
  apply union_indexes_stat_names.
  - intros Hnil. apply (f_equal length) in Hnil. rewrite !length_fmap in Hnil.
    unfold sorted in Hnil. rewrite merge_sort_Permutation in Hnil.
    unfold dict_keys in Hnil. rewrite length_fmap in Hnil.
    by destruct data.
  - rewrite <- !list_fmap_compose. apply Forall_fmap, Forall_forall.
    intros k Hk%sorted_elem_of%dict_get_is_Some. destruct Hk as [v Hv].
    destruct (data_stats k v Hv) as [s ->]. simpl. by rewrite Hv.
Qed.

Lemma from_records_loc (k row : string) (s : Series F) :
  dict_get data k = Some (stat_of s) →
  loc (from_records data) row k = dict_get (stat_of s) row.
Proof.
  intros Hk.
  assert (Hix : index (from_records data) = stat_names).
  { apply from_records_index_nonempty. intros Hnil. by rewrite Hnil in Hk. }
  unfold loc. rewrite Hix. clear Hix.
  assert (Hcol : dict_get (columns (from_records data)) k
                 = Some (reindex (index (from_records data)) (stat_of s))).
  { unfold from_records. cbn [columns index].
    rewrite <- list_fmap_compose, dict_get_tabulate.
    - cbn [compose]. by rewrite Hk.
    - apply sorted_elem_of, dict_get_is_Some. eauto. }
  rewrite Hcol, from_records_index_nonempty.
  2:{ intros Hnil. by rewrite Hnil in Hk. }
  unfold stat_of. cbn [dict_get get_loc].
  destruct (decide ("max" = row)) as [<-|_]; [reflexivity|].
  destruct (decide ("mean" = row)) as [<-|_]; [reflexivity|].
  destruct (decide ("min" = row)) as [<-|_]; reflexivity.
Qed.

End from_records_facts.


(** C6: when some requested band is absent from the mapping, [calc_stats]
    raises a [KeyError] (on an absent band, or on the magnitude column of an
    earlier band) and no summary is returned. *)
Theorem calc_stats_missing_band lc (bands : list string) (mag_col : string) :
  (∃ b, b ∈ bands ∧ lc !! b = None) →
  ∃ k, calc_stats lc bands mag_col = Raise (KeyError k)
       ∧ (k ∈ bands ∧ lc !! k = None ∨ k = mag_col).
Proof.
  intros Hmiss.
  destruct (calc_stats_loop_raise lc bands mag_col [] Hmiss) as (k & Hk & Hwhy).
  exists k. unfold calc_stats. rewrite Hk. eauto.
Qed.

End summary.

(** A fold that keeps one of its two arguments at each step returns an
    element of the list. *)
Lemma foldl_pick {A} (f : A → A → A) (x : A) (r : list A) :
  (∀ m y, f m y = m ∨ f m y = y) → foldl f x r ∈ x :: r.
Proof.
  intros Hf. revert x. induction r as [|y r IH]; intros x; simpl; [left|].
  destruct (Hf x y) as [Hm|Hm]; rewrite Hm.
  - specialize (IH x). apply elem_of_cons in IH as [Hx|Hx]; [rewrite Hx; left|by do 2 right].
  - right. apply IH.
Qed.

(** ** Column selection *)

Section columns.
Context {F : Type} `{!Dtype F}.
Implicit Types (df : DataFrame F) (s : Series F).

Lemma normalize_lc_series df (mag_col : string) :
  normalize_lc df mag_col =
  match df !! mag_col with
  | Some s => Ok (normalize_series s)
  | None => Raise (KeyError mag_col)
  end.
Proof.
  unfold normalize_lc, min_mag, max_mag, getitem.
  destruct (df !! mag_col) as [s|] eqn:Hs; [|reflexivity].
  cbn [res_bind]. unfold DataFrame_sub. rewrite lookup_fmap, Hs. reflexivity.
Qed.

(** C8: two tables that agree on the magnitude column give the same
    [normalize_lc] output and the same three statistics, whatever their
    other columns hold. *)
Theorem magnitude_column_only df1 df2 (mag_col : string) :
  df1 !! mag_col = df2 !! mag_col →
  normalize_lc df1 mag_col = normalize_lc df2 mag_col
  ∧ mean_mag df1 mag_col = mean_mag df2 mag_col
  ∧ max_mag df1 mag_col = max_mag df2 mag_col
  ∧ min_mag df1 mag_col = min_mag df2 mag_col.
Proof.
  intros Hcol. rewrite !normalize_lc_series.
  unfold mean_mag, max_mag, min_mag, getitem. rewrite Hcol. done.
Qed.

(** C10: on a table with zero rows whose schema has the magnitude column,
    [normalize_lc] returns the empty sequence and raises nothing. *)
Theorem normalize_lc_empty df (mag_col : string) :
  df !! mag_col = Some [] →
  normalize_lc df mag_col = Ok [].
Proof. intros Hcol. rewrite normalize_lc_series, Hcol. reflexivity. Qed.

(** *** Missing values *)

Lemma dropna_idemp s : dropna (dropna s) = dropna s.
Proof.
  unfold dropna. induction s as [|x s IH]; [done|]. simpl.
  destruct (notna x) eqn:Hx; simpl; [|done]. by rewrite Hx, IH.
Qed.

Lemma dropna_notna s x : x ∈ dropna s → f_isnan x = false.
Proof.
  unfold dropna. rewrite list_elem_of_In, List.filter_In. unfold notna.
  intros [_ Hx]. by apply negb_true_iff.
Qed.

Lemma Series_max_elem s : dropna s ≠ [] → Series_max s ∈ dropna s.
Proof.
  unfold Series_max. destruct (dropna s) as [|x r]; [done|]. intros _.
  apply foldl_pick. intros m y. destruct (f_ltb m y); auto.
Qed.

Lemma Series_min_elem s : dropna s ≠ [] → Series_min s ∈ dropna s.
Proof.
  unfold Series_min. destruct (dropna s) as [|x r]; [done|]. intros _.
  apply foldl_pick. intros m y. destruct (f_ltb y m); auto.
Qed.

(** C3 (amended): the reducers leave NaN entries out.  Each returns what it
    returns on the column with the NaN entries removed, and [max_mag] and
    [min_mag] are not NaN as soon as one entry is not NaN. *)
Theorem reducers_skip_nan df (mag_col : string) s :
  df !! mag_col = Some s →
  mean_mag df mag_col = mean_mag (<[mag_col := dropna s]> df) mag_col
  ∧ max_mag df mag_col = max_mag (<[mag_col := dropna s]> df) mag_col
  ∧ min_mag df mag_col = min_mag (<[mag_col := dropna s]> df) mag_col
  ∧ ((∃ x, x ∈ s ∧ f_isnan x = false) →
     ∃ mx mi, max_mag df mag_col = Ok mx ∧ min_mag df mag_col = Ok mi
              ∧ f_isnan mx = false ∧ f_isnan mi = false).
Proof.
  intros Hs. unfold mean_mag, max_mag, min_mag, getitem.
  rewrite lookup_insert_eq, Hs. cbn [res_bind].
  unfold Series_mean, Series_max, Series_min. rewrite dropna_idemp.
  split_and!; [done..|].
  intros (x & Hx & Hnan).
  assert (Hne : dropna s ≠ []).
  { intros Hnil. assert (Hin : x ∈ dropna s).
    { unfold dropna. apply list_elem_of_In, List.filter_In.
      split; [by apply list_elem_of_In|]. unfold notna. by rewrite Hnan. }
    rewrite Hnil in Hin. inv Hin. }
  exists (Series_max s), (Series_min s). split_and!; [done..| |].
  - eapply dropna_notna, Series_max_elem, Hne.
  - eapply dropna_notna, Series_min_elem, Hne.
Qed.

End columns.

(** ** Exact arithmetic *)

Module ExactFacts.
Import Exact ExactDefs.
Local Open Scope Qc_scope.

(** *** Rational arithmetic *)

Lemma Qcminus_eq_0 (v l : Qc) : v - l = 0 ↔ v = l.
Proof.
  split; [intros H|intros ->; ring].
  rewrite <- (Qcplus_0_r l), <- H. ring.
Qed.

Lemma Qcminus_pos (l M : Qc) : l < M → 0 < M - l.
Proof. intros H. apply Qclt_minus_iff in H. exact H. Qed.

Lemma Qcminus_nonneg (l v : Qc) : l ≤ v → 0 ≤ v - l.
Proof. intros H. apply Qcle_minus_iff in H. exact H. Qed.

(** *** Minimum and maximum of a list of rationals *)

Lemma minQ_elem q r : minQ q r ∈ q :: r.
Proof. apply foldl_pick. intros m y. case_bool_decide; auto. Qed.

Lemma maxQ_elem q r : maxQ q r ∈ q :: r.
Proof. apply foldl_pick. intros m y. case_bool_decide; auto. Qed.

Lemma minQ_le q r x : x ∈ q :: r → minQ q r ≤ x.
Proof.
  unfold minQ. revert q x. induction r as [|y r IH]; intros q x Hx; simpl.
  - apply list_elem_of_singleton in Hx as ->. done.
  - assert (Hstep : (if bool_decide (y < q) then y else q) ≤ q
                    ∧ (if bool_decide (y < q) then y else q) ≤ y).
    { case_bool_decide as Hlt; split; try done.
      - by apply Qclt_le_weak.
      - by apply Qcnot_lt_le. }
    destruct Hstep as [Hq Hy].
    apply elem_of_cons in Hx as [->|Hx].
    + etrans; [apply IH; left|exact Hq].
    + apply elem_of_cons in Hx as [->|Hx].
      * etrans; [apply IH; left|exact Hy].
      * apply IH. by right.
Qed.

Lemma maxQ_ge q r x : x ∈ q :: r → x ≤ maxQ q r.
Proof.
  unfold maxQ. revert q x. induction r as [|y r IH]; intros q x Hx; simpl.
  - apply list_elem_of_singleton in Hx as ->. done.
  - assert (Hstep : q ≤ (if bool_decide (q < y) then y else q)
                    ∧ y ≤ (if bool_decide (q < y) then y else q)).
    { case_bool_decide as Hlt; split; try done.
      - by apply Qclt_le_weak.
      - by apply Qcnot_lt_le. }
    destruct Hstep as [Hq Hy].
    apply elem_of_cons in Hx as [->|Hx].
    + etrans; [exact Hq|apply IH; left].
    + apply elem_of_cons in Hx as [->|Hx].
      * etrans; [exact Hy|apply IH; left].
      * apply IH. by right.
Qed.

Lemma minQ_unique q r m : m ∈ q :: r → (∀ x, x ∈ q :: r → m ≤ x) → minQ q r = m.
Proof.
  intros Hm Hle. apply Qcle_antisym; [by apply minQ_le|apply Hle, minQ_elem].
Qed.

Lemma maxQ_unique q r m : m ∈ q :: r → (∀ x, x ∈ q :: r → x ≤ m) → maxQ q r = m.
Proof.
  intros Hm Hle. apply Qcle_antisym; [apply Hle, maxQ_elem|by apply maxQ_ge].
Qed.

Lemma minQ_le_maxQ q r : minQ q r ≤ maxQ q r.
Proof. apply minQ_le, maxQ_elem. Qed.

(** *** Columns of finite values and NaN *)

Lemma finite_nan_or_finite (s : Series xfloat) :
  Forall (λ x, finite x = true) s → Forall (λ x, nan_or_finite x = true) s.
Proof. intros Hs. eapply Forall_impl; [exact Hs|]. by intros [| |]. Qed.

Lemma nums_elem (s : Series xfloat) v : v ∈ nums s ↔ Num v ∈ s.
Proof.
  unfold nums. rewrite list_elem_of_omap. split.
  - intros (x & Hx & Hv). destruct x; naive_solver.
  - intros Hv. exists (Num v). done.
Qed.

Lemma nums_finite (s : Series xfloat) :
  Forall (λ x, finite x = true) s → s = Num <$> nums s.
Proof.
  induction 1 as [|x s Hx _ IH]; [done|].
  destruct x; try discriminate. cbn. by f_equal.
Qed.

Lemma dropna_nums (s : Series xfloat) :
  Forall (λ x, nan_or_finite x = true) s → dropna s = Num <$> nums s.
Proof.
  induction 1 as [|x s Hx _ IH]; [done|].
  destruct x; try discriminate; cbn; [exact IH|by f_equal].
Qed.

Lemma foldl_Num (f : xfloat → xfloat → xfloat) (g : Qc → Qc → Qc) q r :
  (∀ a b, f (Num a) (Num b) = Num (g a b)) →
  foldl f (Num q) (Num <$> r) = Num (foldl g q r).
Proof.
  intros Hfg. revert q. induction r as [|y r IH]; intros q; [done|].
  cbn. by rewrite Hfg, IH.
Qed.

Section nan_or_finite.
Context (s : Series xfloat).
Hypothesis s_nan_or_finite : Forall (λ x, nan_or_finite x = true) s.

Lemma Series_min_nums q r : nums s = q :: r → Series_min s = Num (minQ q r).
Proof.
  intros Hs. unfold Series_min, minQ. rewrite dropna_nums, Hs by done. cbn.
  apply foldl_Num. intros a b. cbn. by case_bool_decide.
Qed.

Lemma Series_max_nums q r : nums s = q :: r → Series_max s = Num (maxQ q r).
Proof.
  intros Hs. unfold Series_max, maxQ. rewrite dropna_nums, Hs by done. cbn.
  apply foldl_Num. intros a b. cbn. by case_bool_decide.
Qed.

Lemma Series_min_no_nums : nums s = [] → Series_min s = NaN.
Proof. intros Hs. unfold Series_min. by rewrite dropna_nums, Hs. Qed.

Lemma Series_max_no_nums : nums s = [] → Series_max s = NaN.
Proof. intros Hs. unfold Series_max. by rewrite dropna_nums, Hs. Qed.

End nan_or_finite.

(** Subtracting a finite scalar. *)
Lemma nums_sub (s : Series xfloat) (l : Qc) :
  nums (Series_sub s (Num l)) = (λ v, v - l) <$> nums s.
Proof.
  induction s as [|x s IH]; [done|].
  destruct x; cbn; [exact IH|exact IH|]. f_equal. exact IH.
Qed.

Lemma nan_or_finite_sub (s : Series xfloat) (l : Qc) :
  Forall (λ x, nan_or_finite x = true) s →
  Forall (λ x, nan_or_finite x = true) (Series_sub s (Num l)).
Proof.
  intros Hs. unfold Series_sub. apply Forall_fmap.
  eapply Forall_impl; [exact Hs|]. by intros [| |].
Qed.

Lemma maxQ_sub q r (l : Qc) :
  maxQ (q - l) ((λ v, v - l) <$> r) = maxQ q r - l.
Proof.
  apply maxQ_unique.
  - change ((q - l) :: ((λ v, v - l) <$> r)) with ((λ v, v - l) <$> (q :: r)).
    apply (list_elem_of_fmap_2 (λ v, v - l)), maxQ_elem.
  - intros x Hx.
    change ((q - l) :: ((λ v, v - l) <$> r)) with ((λ v, v - l) <$> (q :: r)) in Hx.
    apply list_elem_of_fmap in Hx as (v & -> & Hv).
    apply Qcplus_le_mono_r. by apply maxQ_ge.
Qed.

(** *** The normalised column *)

Lemma normalize_series_nums (s : Series xfloat) q r :
  Forall (λ x, nan_or_finite x = true) s → nums s = q :: r →
  normalize_series s = rescale (minQ q r) (maxQ q r) <$> s.
Proof.
  intros Hs Hq. unfold normalize_series.
  rewrite (Series_min_nums s Hs q r Hq). cbn zeta.
  rewrite (Series_max_nums _ (nan_or_finite_sub s _ Hs) (q - minQ q r)
             ((λ v, v - minQ q r) <$> r)).
  2:{ by rewrite nums_sub, Hq. }
  rewrite maxQ_sub. unfold fillna, Series_div, Series_sub.
  rewrite <- !list_fmap_compose. apply list_fmap_ext.
  intros i x Hx. apply list_elem_of_lookup_2 in Hx.
  rewrite Forall_forall in Hs. specialize (Hs x Hx).
  destruct x as [|b|v]; [done|done|]. cbn.
  assert (Hv : v ∈ q :: r) by (rewrite <- Hq; by apply nums_elem).
  pose proof (minQ_le q r v Hv) as Hlo. pose proof (maxQ_ge q r v Hv) as Hhi.
  unfold zeroQ. case_bool_decide as HM.
  - apply (proj1 (Qcminus_eq_0 _ _)) in HM.
    assert (Hvl : v = minQ q r) by (apply Qcle_antisym; [by rewrite <- HM|done]).
    rewrite (bool_decide_true (maxQ q r = minQ q r)) by done.
    rewrite bool_decide_true; [done|]. by apply (Qcminus_eq_0 v (minQ q r)).
  - rewrite (bool_decide_false (maxQ q r = minQ q r)); [done|].
    intros HM'. apply HM. by apply Qcminus_eq_0.
Qed.

Lemma normalize_series_no_nums (s : Series xfloat) :
  Forall (λ x, nan_or_finite x = true) s → nums s = [] →
  normalize_series s = (λ _, Num 0) <$> s.
Proof.
  intros Hs Hq. unfold normalize_series.
  rewrite (Series_min_no_nums s Hs Hq). cbn zeta.
  unfold fillna, Series_div, Series_sub.
  rewrite <- !list_fmap_compose. apply list_fmap_ext.
  intros i x _. by destruct x as [|b|v].
Qed.

(** *** Constant columns *)

Lemma foldl_replicate {A} (f : A → A → A) (x : A) (n : nat) :
  f x x = x → foldl f x (replicate n x) = x.
Proof. intros Hf. induction n as [|n IH]; [done|]. cbn. by rewrite Hf. Qed.

Lemma dropna_replicate (v : xfloat) (n : nat) :
  isnan v = false → dropna (replicate n v) = replicate n v.
Proof.
  intros Hv. induction n as [|n IH]; [done|].
  cbn. unfold notna. cbn. rewrite Hv. cbn. by f_equal.
Qed.

Lemma nums_replicate_NaN (n : nat) : nums (replicate n NaN) = [].
Proof. by induction n. Qed.

Lemma nums_replicate_Num (w : Qc) (n : nat) :
  nums (replicate n (Num w)) = replicate n w.
Proof. induction n as [|n IH]; [done|]. cbn. by f_equal. Qed.

Lemma normalize_series_constant (v : xfloat) (n : nat) :
  normalize_series (replicate (S n) v) = replicate (S n) (Num 0).
Proof.
  destruct v as [|b|w].
  - rewrite normalize_series_no_nums.
    + by rewrite fmap_replicate.
    + apply Forall_replicate. done.
    + apply nums_replicate_NaN.
  - unfold normalize_series.
    assert (Hmin : Series_min (replicate (S n) (Inf b)) = Inf b).
    { unfold Series_min. rewrite dropna_replicate by done. cbn [replicate].
      apply foldl_replicate. cbn. by destruct b. }
    rewrite Hmin. cbn zeta. unfold fillna, Series_div, Series_sub.
    rewrite !fmap_replicate. f_equal. cbn. by destruct b.
  - rewrite (normalize_series_nums _ w (replicate n w)).
    + rewrite fmap_replicate. f_equal. cbn.
      rewrite bool_decide_true; [done|].
      unfold maxQ, minQ. rewrite !foldl_replicate; [done|..];
        rewrite bool_decide_false; try done; apply Qclt_not_le, Qcle_refl || apply Qcle_not_lt, Qcle_refl.
    + apply Forall_replicate. done.
    + apply (nums_replicate_Num w (S n)).
Qed.


End ExactFacts.

(** ** Running the tests *)

(** Closed results are compared up to the canonicity proofs of [Qc]. *)
Ltac run :=
  vm_compute;
  repeat first
    [ reflexivity
    | apply Qc_is_canon; reflexivity
    | progress f_equal ].

Module Tests.
Import Exact Fixtures.

Example test_max_mag : max_mag test_df "a" = Ok (z 7).
Proof. run. Qed.

Example test_max_mag_zeros : max_mag zeros_df "b" = Ok (z 0).
Proof. run. Qed.

Example test_mean_mag : mean_mag test_df "a" = Ok (frac 11 3).
Proof. run. Qed.

Example test_mean_mag_zeros : mean_mag zeros_df "b" = Ok (z 0).
Proof. run. Qed.

Example test_calc_stats :
  calc_stats test_dict ["df0"; "df1"; "df2"] "b" =
  Ok (mkFrame ["max"; "mean"; "min"]
        [("df0", [z 9; frac 21 4; z 1]);
         ("df1", [z 9; frac 27 4; z 2]);
         ("df2", [z 6; z 4; z 2])]).
Proof. run. Qed.

Example test_normalize_lc :
  normalize_lc test_input_df "b" = Ok [z 1; frac 2 7; z 0; frac 2 7].
Proof. run. Qed.

Example test_normalize_lc_ones :
  normalize_lc ones_df "b" = Ok [z 0; z 0; z 0; z 0].
Proof. run. Qed.

Example test_normalize_lc_binary64 :
  normalize_lc (F:=float) {[ "b" := [9; 4; 2; 4]%float ]} "b"
  = Ok [1; 0x1.2492492492492p-2; 0; 0x1.2492492492492p-2]%float.
Proof. vm_compute. reflexivity. Qed.

End Tests.

(** ** Concrete instances *)

Section instances.
Import Exact ExactDefs ExactFacts Fixtures.



(** The reducers on a column with one missing observation. *)
Lemma reducers_skip_nan_witness :
  mean_mag gap_df "b" = mean_mag (<["b" := dropna [z 1; NaN; z 3]]> gap_df) "b"
  ∧ max_mag gap_df "b" = max_mag (<["b" := dropna [z 1; NaN; z 3]]> gap_df) "b"
  ∧ min_mag gap_df "b" = min_mag (<["b" := dropna [z 1; NaN; z 3]]> gap_df) "b"
  ∧ ∃ mx mi, max_mag gap_df "b" = Ok mx ∧ min_mag gap_df "b" = Ok mi
             ∧ f_isnan mx = false ∧ f_isnan mi = false.
Proof.
  destruct (reducers_skip_nan gap_df "b" [z 1; NaN; z 3] eq_refl)
    as (Hmean & Hmax & Hmin & Hnotnan).
  split_and!; [done..|]. apply Hnotnan. exists (z 1). split; [left|reflexivity].
Defined.

(** C3, as stated, fails: with a NaN between 1 and 3 the three reducers
    return 3, 2 and 1, none of which is NaN. *)
Lemma reducers_nan_not_propagated :
  max_mag gap_df "b" = Ok (z 3) ∧ mean_mag gap_df "b" = Ok (z 2)
  ∧ min_mag gap_df "b" = Ok (z 1)
  ∧ f_isnan (z 3) = false ∧ f_isnan (z 2) = false ∧ f_isnan (z 1) = false.
Proof. split_and!; run. Qed.


(** The band df3 is not in [test_dict]. *)
Lemma calc_stats_missing_band_witness :
  ∃ k, calc_stats test_dict ["df2"; "df0"; "df3"] "b" = Raise (KeyError k)
       ∧ (k ∈ ["df2"; "df0"; "df3"] ∧ test_dict !! k = None ∨ k = "b").
Proof.
  apply (calc_stats_missing_band test_dict ["df2"; "df0"; "df3"] "b").
  exists "df3". split; [do 2 right; left|reflexivity].
Defined.

(** [test_input_df] and a table holding only its column b. *)
Lemma magnitude_column_only_witness :
  normalize_lc test_input_df "b" = normalize_lc {[ "b" := [z 9; z 4; z 2; z 4] ]} "b"
  ∧ mean_mag test_input_df "b" = mean_mag {[ "b" := [z 9; z 4; z 2; z 4] ]} "b"
  ∧ max_mag test_input_df "b" = max_mag {[ "b" := [z 9; z 4; z 2; z 4] ]} "b"
  ∧ min_mag test_input_df "b" = min_mag {[ "b" := [z 9; z 4; z 2; z 4] ]} "b".
Proof. apply magnitude_column_only. reflexivity. Defined.

(** A table with column b and no rows. *)
Lemma normalize_lc_empty_witness : normalize_lc empty_df "b" = Ok [].
Proof. apply (normalize_lc_empty empty_df "b"). reflexivity. Defined.

End instances.

(** ** Further properties of [calc_stats] *)

Section calc_stats_more.
Context {F : Type} `{!Dtype F}.
Implicit Types (lc : gmap string (DataFrame F)).

(** The loop succeeds only if every band it visits is in the mapping and has
    the magnitude column. *)
Lemma calc_stats_loop_Ok_inv lc bands (mag_col : string) stats stats' :
  calc_stats_loop lc bands mag_col stats = Ok stats' →
  ∀ b, b ∈ bands → ∃ t, lc !! b = Some t ∧ is_Some (t !! mag_col).
Proof.
  revert stats. induction bands as [|b0 bands IH]; intros stats Hrun b Hb.
  - inv Hb.
  - cbn [calc_stats_loop] in Hrun. unfold getband in Hrun.
    destruct (lc !! b0) as [t0|] eqn:Ht0; cbn [res_bind] in Hrun; [|discriminate].
    unfold max_mag, mean_mag, min_mag, getitem in Hrun.
    destruct (t0 !! mag_col) as [s0|] eqn:Hs0; cbn [res_bind] in Hrun; [|discriminate].
    apply elem_of_cons in Hb as [->|Hb].
    + exists t0. split; [done|]. rewrite Hs0. eauto.
    + eapply IH; [exact Hrun|exact Hb].
Qed.

(** [calc_stats] returns a summary exactly when every requested band is in
    the mapping and has the magnitude column. *)
Theorem calc_stats_Ok_iff lc (bands : list string) (mag_col : string) :
  (∃ fr, calc_stats lc bands mag_col = Ok fr) ↔
  (∀ b, b ∈ bands → ∃ t, lc !! b = Some t ∧ is_Some (t !! mag_col)).
Proof.
  split.
  - intros [fr Hfr]. unfold calc_stats in Hfr.
    destruct (calc_stats_loop lc bands mag_col []) as [stats|e] eqn:Hrun; [|discriminate].
    by eapply calc_stats_loop_Ok_inv.
  - intros Hall.
    destruct (calc_stats_loop_ok lc bands mag_col []) as (stats & Hrun & _).
    { intros b Hb. destruct (Hall b Hb) as (t & Ht & s & Hs). eauto. }
    exists (from_records stats). unfold calc_stats. by rewrite Hrun.
Qed.

Lemma calc_stats_loop_app lc pre post (mag_col : string) stats :
  (∀ b, b ∈ pre → ∃ t, lc !! b = Some t ∧ is_Some (t !! mag_col)) →
  ∃ stats', calc_stats_loop lc (pre ++ post) mag_col stats
            = calc_stats_loop lc post mag_col stats'.
Proof.
  revert stats. induction pre as [|b0 pre IH]; intros stats Hpre.
  - by exists stats.
  - destruct (Hpre b0) as (t0 & Ht0 & s0 & Hs0); [left|].
    rewrite <- app_comm_cons, (calc_stats_loop_cons _ _ _ _ _ t0 s0) by done.
    apply IH. intros b Hb. apply Hpre. by right.
Qed.

(** The exception names the first lookup that fails: the first band that is
    absent from the mapping, or the magnitude column when the first failing
    band is present but lacks it. *)
Theorem calc_stats_first_error lc (pre post : list string) (b mag_col : string) :
  (∀ p, p ∈ pre → ∃ t, lc !! p = Some t ∧ is_Some (t !! mag_col)) →
  (lc !! b = None →
   calc_stats lc (pre ++ b :: post) mag_col = Raise (KeyError b))
  ∧ (∀ t, lc !! b = Some t → t !! mag_col = None →
     calc_stats lc (pre ++ b :: post) mag_col = Raise (KeyError mag_col)).
Proof.
  intros Hpre.
  destruct (calc_stats_loop_app lc pre (b :: post) mag_col [] Hpre) as [stats Hrun].
  unfold calc_stats. rewrite Hrun. cbn [calc_stats_loop]. unfold getband.
  split.
  - intros Hb. by rewrite Hb.
  - intros t Hb Ht. rewrite Hb. cbn [res_bind].
    unfold max_mag, getitem. by rewrite Ht.
Qed.

(** The loop reads nothing but the magnitude column of the bands it visits. *)
Lemma calc_stats_loop_reads lc lc' bands (mag_col : string) stats :
  (∀ b, b ∈ bands →
     (λ t : DataFrame F, t !! mag_col) <$> lc !! b
     = (λ t : DataFrame F, t !! mag_col) <$> lc' !! b) →
  calc_stats_loop lc bands mag_col stats = calc_stats_loop lc' bands mag_col stats.
Proof.
  revert stats. induction bands as [|b0 bands IH]; intros stats Hagree; [done|].
  assert (Hb0 := Hagree b0 ltac:(left)).
  assert (Hrest : ∀ stats', calc_stats_loop lc bands mag_col stats'
                            = calc_stats_loop lc' bands mag_col stats').
  { intros stats'. apply IH. intros b Hb. apply Hagree. by right. }
  cbn [calc_stats_loop]. unfold getband, max_mag, mean_mag, min_mag, getitem.
  destruct (lc !! b0) as [t0|], (lc' !! b0) as [t0'|]; try discriminate;
    cbn [res_bind]; [|done].
  injection Hb0 as Hb0. rewrite Hb0.
  destruct (t0' !! mag_col) as [s0|]; cbn [res_bind]; [|done].
  apply Hrest.
Qed.

(** Two mappings whose requested bands agree on the magnitude column give
    the same result, a summary or an exception, whatever their other bands
    and other columns hold. *)
Theorem calc_stats_reads_only lc lc' (bands : list string) (mag_col : string) :
  (∀ b, b ∈ bands →
     (λ t : DataFrame F, t !! mag_col) <$> lc !! b
     = (λ t : DataFrame F, t !! mag_col) <$> lc' !! b) →
  calc_stats lc bands mag_col = calc_stats lc' bands mag_col.
Proof.
  intros Hagree. unfold calc_stats.
  by rewrite (calc_stats_loop_reads lc lc' bands mag_col [] Hagree).
Qed.

(** [from_records] sees a dict of dicts through its sorted keys and its
    values. *)
Lemma from_records_ext (data1 data2 : pydict (pydict F)) :
  sorted (dict_keys data1) = sorted (dict_keys data2) →
  (∀ k, k ∈ dict_keys data1 → dict_get data1 k = dict_get data2 k) →
  from_records data1 = from_records data2.
Proof.
  intros Hkeys Hvals. unfold from_records. rewrite <- Hkeys.
  assert (Harr : (λ k, default [] (dict_get data1 k)) <$> sorted (dict_keys data1)
               = (λ k, default [] (dict_get data2 k)) <$> sorted (dict_keys data1)).
  { apply list_fmap_ext. intros i k Hk%list_elem_of_lookup_2.
    apply (proj1 (sorted_elem_of _ _)) in Hk. by rewrite (Hvals k Hk). }
  by rewrite Harr.
Qed.

(** The summary depends on the set of requested bands only: their order and
    their repetitions in the sequence do not show in the result. *)
Theorem calc_stats_order_irrelevant lc (bands bands' : list string)
    (mag_col : string) :
  (∀ b, b ∈ bands → ∃ t, lc !! b = Some t ∧ is_Some (t !! mag_col)) →
  (∀ b, b ∈ bands ↔ b ∈ bands') →
  calc_stats lc bands mag_col = calc_stats lc bands' mag_col.
Proof.
  intros Hall Hsame.
  assert (Hall' : ∀ b, b ∈ bands' → ∃ t s, lc !! b = Some t ∧ t !! mag_col = Some s).
  { intros b Hb%Hsame. destruct (Hall b Hb) as (t & Ht & s & Hs). eauto. }
  assert (Hall2 : ∀ b, b ∈ bands → ∃ t s, lc !! b = Some t ∧ t !! mag_col = Some s).
  { intros b Hb. destruct (Hall b Hb) as (t & Ht & s & Hs). eauto. }
  destruct (calc_stats_loop_ok lc bands mag_col [] Hall2)
    as (st1 & Hrun1 & Hkeys1 & Hnd1 & _ & Hin1).
  destruct (calc_stats_loop_ok lc bands' mag_col [] Hall')
    as (st2 & Hrun2 & Hkeys2 & Hnd2 & _ & Hin2).
  specialize (Hnd1 (NoDup_nil_2)). specialize (Hnd2 (NoDup_nil_2)).
  unfold calc_stats. rewrite Hrun1, Hrun2. cbn [res_bind]. f_equal.
  apply from_records_ext.
  - apply (Sorted_unique String.le).
    + apply Sorted_merge_sort; apply _.
    + apply Sorted_merge_sort; apply _.
    + unfold sorted. rewrite !merge_sort_Permutation.
      apply NoDup_Permutation; [done..|].
      intros k. rewrite Hkeys1, Hkeys2, Hsame, elem_of_nil. tauto.
  - intros k Hk. apply Hkeys1 in Hk as [Hk|Hk]; [inv Hk|].
    destruct (Hall2 k Hk) as (t & s & Ht & Hs).
    rewrite (Hin1 k t s Hk Ht Hs). symmetry. apply (Hin2 k t s); [by apply Hsame|done..].
Qed.

End calc_stats_more.

(** ** Columns that may hold infinite values *)

Module ExactOrder.
Import Exact ExactDefs OrderDefs ExactFacts.
Local Open Scope Qc_scope.

(** *** The order of the values that are not NaN *)

Lemma ltb_leb a b : ltb a b = true → leb a b = true.
Proof.
  destruct a as [|[]|p], b as [|[]|q]; cbn; try done.
  rewrite !bool_decide_eq_true. apply Qclt_le_weak.
Qed.

Lemma not_ltb_leb a b :
  isnan a = false → isnan b = false → ltb a b = false → leb b a = true.
Proof.
  destruct a as [|[]|p], b as [|[]|q]; cbn; try done.
  rewrite bool_decide_eq_false, bool_decide_eq_true. intros _ _. apply Qcnot_lt_le.
Qed.

Lemma leb_trans a b c : leb a b = true → leb b c = true → leb a c = true.
Proof.
  destruct a as [|[]|p], b as [|[]|q], c as [|[]|r]; cbn; try done.
  rewrite !bool_decide_eq_true. apply Qcle_trans.
Qed.

Lemma leb_antisym a b : leb a b = true → leb b a = true → a = b.
Proof.
  destruct a as [|[]|p], b as [|[]|q]; cbn; try done.
  rewrite !bool_decide_eq_true. intros H1 H2. f_equal. by apply Qcle_antisym.
Qed.

Lemma leb_refl a : isnan a = false → leb a a = true.
Proof. destruct a as [|[]|p]; cbn; try done. intros _. by apply bool_decide_eq_true. Qed.

Lemma elem_of_dropna (s : Series xfloat) x :
  x ∈ dropna s ↔ x ∈ s ∧ isnan x = false.
Proof.
  unfold dropna. rewrite list_elem_of_In, List.filter_In, <- list_elem_of_In.
  unfold notna. cbn. by rewrite negb_true_iff.
Qed.

Lemma foldl_min_lower (acc : xfloat) (r : list xfloat) x :
  Forall (λ y, isnan y = false) (acc :: r) → x ∈ acc :: r →
  leb (foldl (λ m y, if ltb y m then y else m) acc r) x = true.
Proof.
  revert acc x. induction r as [|y r IH]; intros acc x Hnn Hx; cbn [foldl].
  - apply list_elem_of_singleton in Hx as ->. apply leb_refl.
    by apply Forall_inv in Hnn.
  - pose proof (Forall_inv Hnn) as Hacc.
    pose proof (Forall_inv (Forall_inv_tail Hnn)) as Hy.
    pose proof (Forall_inv_tail (Forall_inv_tail Hnn)) as Hr.
    set (m := if ltb y acc then y else acc).
    assert (Hm : isnan m = false) by (unfold m; by destruct (ltb y acc)).
    assert (Hmacc : leb m acc = true).
    { unfold m. destruct (ltb y acc) eqn:Hlt; [by apply ltb_leb|by apply leb_refl]. }
    assert (Hmy : leb m y = true).
    { unfold m. destruct (ltb y acc) eqn:Hlt; [by apply leb_refl|by apply not_ltb_leb]. }
    assert (Hfold : leb (foldl (λ m y, if ltb y m then y else m) m r) m = true).
    { apply IH; [by constructor|left]. }
    apply elem_of_cons in Hx as [->|Hx]; [by eapply leb_trans|].
    apply elem_of_cons in Hx as [->|Hx]; [by eapply leb_trans|].
    apply IH; [by constructor|by right].
Qed.

Lemma foldl_max_upper (acc : xfloat) (r : list xfloat) x :
  Forall (λ y, isnan y = false) (acc :: r) → x ∈ acc :: r →
  leb x (foldl (λ m y, if ltb m y then y else m) acc r) = true.
Proof.
  revert acc x. induction r as [|y r IH]; intros acc x Hnn Hx; cbn [foldl].
  - apply list_elem_of_singleton in Hx as ->. apply leb_refl.
    by apply Forall_inv in Hnn.
  - pose proof (Forall_inv Hnn) as Hacc.
    pose proof (Forall_inv (Forall_inv_tail Hnn)) as Hy.
    pose proof (Forall_inv_tail (Forall_inv_tail Hnn)) as Hr.
    set (m := if ltb acc y then y else acc).
    assert (Hm : isnan m = false) by (unfold m; by destruct (ltb acc y)).
    assert (Hmacc : leb acc m = true).
    { unfold m. destruct (ltb acc y) eqn:Hlt; [by apply ltb_leb|by apply leb_refl]. }
    assert (Hmy : leb y m = true).
    { unfold m. destruct (ltb acc y) eqn:Hlt; [by apply leb_refl|by apply not_ltb_leb]. }
    assert (Hfold : leb m (foldl (λ m y, if ltb m y then y else m) m r) = true).
    { apply IH; [by constructor|left]. }
    apply elem_of_cons in Hx as [->|Hx]; [by eapply leb_trans|].
    apply elem_of_cons in Hx as [->|Hx]; [by eapply leb_trans|].
    apply IH; [by constructor|by right].
Qed.

Lemma dropna_Forall (s : Series xfloat) : Forall (λ y, isnan y = false) (dropna s).
Proof. apply Forall_forall. intros y Hy. by apply elem_of_dropna in Hy as [_ ?]. Qed.

Lemma Series_min_lower (s : Series xfloat) x :
  x ∈ dropna s → leb (Series_min s) x = true.
Proof.
  intros Hx. unfold Series_min. pose proof (dropna_Forall s) as Hnn.
  destruct (dropna s) as [|a r]; [inv Hx|]. by apply foldl_min_lower.
Qed.

Lemma Series_max_upper (s : Series xfloat) x :
  x ∈ dropna s → leb x (Series_max s) = true.
Proof.
  intros Hx. unfold Series_max. pose proof (dropna_Forall s) as Hnn.
  destruct (dropna s) as [|a r]; [inv Hx|]. by apply foldl_max_upper.
Qed.

(** On any column, infinite values included, [min_mag] and [max_mag] return
    entries of the column that bound every entry that is not NaN. *)
Theorem reducers_attained_bounds (df : DataFrame xfloat) (mag_col : string)
    (s : Series xfloat) :
  df !! mag_col = Some s →
  (∃ x, x ∈ s ∧ f_isnan x = false) →
  ∃ mi mx,
    min_mag df mag_col = Ok mi ∧ max_mag df mag_col = Ok mx
    ∧ mi ∈ s ∧ mx ∈ s
    ∧ ∀ x, x ∈ s → f_isnan x = false → f_leb mi x = true ∧ f_leb x mx = true.
Proof.
  intros Hcol (x0 & Hx0 & Hnan0).
  assert (Hne : dropna s ≠ []).
  { intros Hnil. assert (Hin : x0 ∈ dropna s) by (by apply elem_of_dropna).
    rewrite Hnil in Hin. inv Hin. }
  exists (Series_min s), (Series_max s).
  unfold min_mag, max_mag, getitem. rewrite Hcol. cbn [res_bind].
  split_and!; [done..| | |].
  - by apply (Series_min_elem s), elem_of_dropna in Hne as [? _].
  - by apply (Series_max_elem s), elem_of_dropna in Hne as [? _].
  - intros x Hx Hnan. assert (Hin : x ∈ dropna s) by (by apply elem_of_dropna).
    split; [by apply Series_min_lower|by apply Series_max_upper].
Qed.

(** *** The range of the normalised column *)

Lemma leb_sub_nonneg lo x : leb lo x = true → nonneg_or_nan (sub x lo).
Proof.
  destruct lo as [|[]|l], x as [|[]|v]; cbn; try done.
  rewrite bool_decide_eq_true. apply Qcle_minus_iff.
Qed.

Lemma sub_min_nonneg (s : Series xfloat) x :
  x ∈ s → nonneg_or_nan (sub x (Series_min s)).
Proof.
  intros Hx. destruct (isnan x) eqn:Hnan.
  - by destruct x.
  - apply leb_sub_nonneg, Series_min_lower. by apply elem_of_dropna.
Qed.

Lemma div_unit_or_nan y hi :
  nonneg_or_nan y → nonneg_or_nan hi →
  (isnan y = false → leb y hi = true) →
  isnan (div y hi) = true ∨ unit_interval (div y hi).
Proof.
  destruct y as [|[]|q], hi as [|[]|h]; cbn; try (by left); try done.
  - intros _ _ Hle. by specialize (Hle eq_refl).
  - intros Hq _ _. right. done.
  - intros Hq Hh Hle. specialize (Hle eq_refl). apply bool_decide_eq_true in Hle.
    unfold zeroQ. case_bool_decide as Hh0.
    + subst h. rewrite bool_decide_true; [by left|]. by apply Qcle_antisym.
    + right. cbn.
      assert (Hpos : 0 < h).
      { destruct (Qcle_lt_or_eq _ _ Hh) as [?|Heq]; [done|]. by destruct Hh0. }
      pose proof (Qcinv_pos _ Hpos) as Hinv. split.
      * apply Qcmult_nonneg_nonneg; [done|by apply Qclt_le_weak].
      * apply (Qcmult_le_mono_pos_r _ _ h Hpos).
        replace (q / h * h) with q by (field; done). by rewrite Qcmult_1_l.
Qed.

Section shifted.
Context (s : Series xfloat).
Let lo := Series_min s.
Let t := Series_sub s lo.
Let hi := Series_max t.

Lemma shifted_nonneg y : y ∈ t → nonneg_or_nan y.
Proof.
  unfold t, Series_sub. intros (x & -> & Hx)%list_elem_of_fmap.
  by apply sub_min_nonneg.
Qed.

Lemma shifted_max_nonneg : nonneg_or_nan hi.
Proof.
  unfold hi. destruct (dropna t) as [|a r] eqn:Hd.
  - unfold Series_max. by rewrite Hd.
  - assert (Hne : dropna t ≠ []) by (by rewrite Hd).
    apply (Series_max_elem t), elem_of_dropna in Hne as [Hin _].
    by apply shifted_nonneg.
Qed.

Lemma normalize_entry x :
  x ∈ s →
  let o := div (sub x lo) hi in
  isnan o = true ∨ unit_interval o.
Proof.
  intros Hx. apply div_unit_or_nan.
  - by apply sub_min_nonneg.
  - apply shifted_max_nonneg.
  - intros Hnan. apply Series_max_upper, elem_of_dropna. split; [|done].
    unfold t, Series_sub. by apply (list_elem_of_fmap_2 (λ x, sub x lo)).
Qed.

Lemma normalize_series_unit_interval :
  Forall unit_interval (normalize_series s).
Proof.
  unfold normalize_series. fold lo. cbn zeta. fold t. fold hi.
  unfold fillna, Series_div, t, Series_sub. rewrite <- !list_fmap_compose.
  apply Forall_fmap, Forall_forall. intros x Hx. cbn.
  destruct (normalize_entry x Hx) as [Hnan|Hunit].
  - cbn in Hnan. rewrite Hnan. cbn. done.
  - cbn in Hunit. destruct (div (sub x lo) hi) eqn:Ho; try done.
Qed.

End shifted.

(** *** The shape of the normalised column *)

Lemma fill_div_NaN y : (if isnan (div y NaN) then Num 0 else div y NaN) = Num 0.
Proof. by destruct y. Qed.

Lemma fill_div_Inf y : (if isnan (div y (Inf false)) then Num 0 else div y (Inf false)) = Num 0.
Proof. by destruct y as [|[]|q]. Qed.

Lemma fill_div_zero y :
  nonneg_or_nan y → (isnan y = false → leb y (Num 0) = true) →
  (if isnan (div y (Num 0)) then Num 0 else div y (Num 0)) = Num 0.
Proof.
  destruct y as [|[]|q]; cbn; try done.
  - intros _ Hle. by specialize (Hle eq_refl).
  - intros Hq Hle. specialize (Hle eq_refl). apply bool_decide_eq_true in Hle.
    unfold zeroQ. rewrite (bool_decide_true (0 = 0)) by done.
    rewrite bool_decide_true; [done|]. by apply Qcle_antisym.
Qed.

(** The output is all zeros, or it holds both a 0 and a 1. *)
Lemma normalize_series_shape (s : Series xfloat) :
  normalize_series s = replicate (length s) (Num 0)
  ∨ (Num 0 ∈ normalize_series s ∧ Num 1 ∈ normalize_series s).
Proof.
  pose (lo := Series_min s). pose (t := Series_sub s lo). pose (hi := Series_max t).
  assert (Hout : normalize_series s
                 = (λ x, if isnan (div (sub x lo) hi) then Num 0 else div (sub x lo) hi) <$> s).
  { unfold normalize_series, fillna, Series_div, Series_sub.
    by rewrite <- !list_fmap_compose. }
  assert (Hupper : ∀ x, x ∈ s → isnan (sub x lo) = false → leb (sub x lo) hi = true).
  { intros x Hx Hnan. apply Series_max_upper, elem_of_dropna. split; [|done].
    unfold t, Series_sub. by apply (list_elem_of_fmap_2 (λ x, sub x lo)). }
  pose proof (shifted_max_nonneg s) as Hhi. fold lo t hi in Hhi.
  rewrite Hout. destruct hi as [|b|h] eqn:Hhieq.
  - left. apply const_fmap. intros i x _. apply fill_div_NaN.
  - left. cbn in Hhi. subst b. apply const_fmap. intros i x _. apply fill_div_Inf.
  - destruct (decide (h = 0)) as [->|Hh0].
    + left. apply const_fmap. intros i x Hx%list_elem_of_lookup_2.
      apply fill_div_zero; [by apply sub_min_nonneg|by apply Hupper].
    + right.
      assert (Hdt : dropna t ≠ []).
      { intros Hnil. unfold hi, Series_max in Hhieq. by rewrite Hnil in Hhieq. }
      apply (Series_max_elem t), elem_of_dropna in Hdt as [Hin _].
      fold hi in Hin. rewrite Hhieq in Hin.
      unfold t, Series_sub in Hin. apply list_elem_of_fmap in Hin as (x1 & Hx1 & Hx1s).
      assert (Hlo : ∃ l, lo = Num l).
      { destruct lo as [|b|l]; [by destruct x1|by destruct x1 as [|[]|], b|eauto]. }
      destruct Hlo as [l Hlo].
      assert (Hds : dropna s ≠ []).
      { intros Hnil. unfold lo, Series_min in Hlo. by rewrite Hnil in Hlo. }
      apply (Series_min_elem s), elem_of_dropna in Hds as [Hlos _]. fold lo in Hlos.
      split.
      * apply list_elem_of_fmap. exists lo. split; [|done].
        rewrite Hlo. cbn. unfold zeroQ. rewrite bool_decide_false by done. cbn.
        f_equal. rewrite Qcplus_opp_r. symmetry. apply Qcmult_0_l.
      * apply list_elem_of_fmap. exists x1. split; [|done].
        change (f_sub x1 lo) with (sub x1 lo) in Hx1.
        rewrite <- Hx1. cbn. unfold zeroQ. rewrite bool_decide_false by done. cbn.
        f_equal. symmetry. by apply Qcmult_inv_r.
Qed.

(** *** Infinite observations *)


End ExactOrder.

(** ** Concrete instances of the further properties *)

Section more_instances.
Import Exact ExactDefs OrderDefs Fixtures MoreFixtures.

(** A band that is absent, and a band that lacks the column. *)
Lemma calc_stats_first_error_witness :
  calc_stats test_dict (["df2"; "df0"] ++ "df3" :: ["df1"]) "b"
  = Raise (KeyError "df3")
  ∧ calc_stats lacking_dict (["g"] ++ "r" :: []) "b" = Raise (KeyError "b").
Proof.
  split.
  - apply (calc_stats_first_error test_dict ["df2"; "df0"] ["df1"] "df3" "b");
      [|reflexivity].
    intros p Hp. repeat (apply elem_of_cons in Hp as [->|Hp]); [..|inv Hp];
      (eexists; split; [reflexivity|eexists; reflexivity]).
  - apply (calc_stats_first_error lacking_dict ["g"] [] "r" "b"
             ) with (t := {[ "a" := [z 1; z 2] ]}); [|reflexivity..].
    intros p Hp. repeat (apply elem_of_cons in Hp as [->|Hp]); [..|inv Hp];
      (eexists; split; [reflexivity|eexists; reflexivity]).
Defined.

(** [other_dict] agrees with [test_dict] on column b of the three bands. *)
Lemma calc_stats_reads_only_witness :
  calc_stats test_dict ["df0"; "df1"; "df2"] "b"
  = calc_stats other_dict ["df0"; "df1"; "df2"] "b".
Proof.
  apply (calc_stats_reads_only test_dict other_dict ["df0"; "df1"; "df2"] "b").
  intros b Hb. repeat (apply elem_of_cons in Hb as [->|Hb]); [..|inv Hb];
    reflexivity.
Defined.

(** The same two bands, requested in two ways. *)
Lemma calc_stats_order_irrelevant_witness :
  calc_stats test_dict ["df1"; "df0"; "df1"] "b"
  = calc_stats test_dict ["df0"; "df1"] "b".
Proof.
  apply (calc_stats_order_irrelevant test_dict ["df1"; "df0"; "df1"] ["df0"; "df1"] "b").
  - intros b Hb. repeat (apply elem_of_cons in Hb as [->|Hb]); [..|inv Hb];
      (eexists; split; [reflexivity|eexists; reflexivity]).
  - intros b. rewrite !elem_of_cons, !elem_of_nil. tauto.
Defined.

(** Minimum and maximum of a column with both infinities. *)
Lemma reducers_attained_bounds_witness :
  ∃ mi mx,
    min_mag wild_df "b" = Ok mi ∧ max_mag wild_df "b" = Ok mx
    ∧ mi ∈ [z 4; Inf false; NaN; Inf true] ∧ mx ∈ [z 4; Inf false; NaN; Inf true]
    ∧ ∀ x, x ∈ [z 4; Inf false; NaN; Inf true] → f_isnan x = false →
        f_leb mi x = true ∧ f_leb x mx = true.
Proof.
  apply (ExactOrder.reducers_attained_bounds wild_df "b"); [reflexivity|].
  exists (z 4). split; [left|reflexivity].
Defined.


End more_instances.


(** ** Tables with int64 and float64 columns *)

Section mixed_tables.
Import Mixed.
Context {F : Type} `{!Dtype F} `{!OfInt F}.

Lemma normalize_lc_column (df : Table F) (mag_col : string) :
  Mixed.normalize_lc df mag_col =
  match df !! mag_col with
  | Some col => Ok (normalize_column col)
  | None => Raise (KeyError mag_col)
  end.
Proof.
  unfold Mixed.normalize_lc, Mixed.min_mag, Mixed.max_mag, Mixed.getitem.
  destruct (df !! mag_col) as [col|] eqn:Hcol; [|reflexivity].
  cbn [res_bind]. unfold Table_sub. rewrite lookup_fmap, Hcol. reflexivity.
Qed.

(** On a float64 column the mixed tables compute what the float64 tables do. *)
Lemma normalize_column_float (s : Series F) :
  normalize_column (FloatCol s) = normalize_series s.
Proof. reflexivity. Qed.

Lemma entries_length (col : column F) : length (entries col) = length (values col).
Proof. destruct col; cbn; by rewrite !length_fmap. Qed.

Lemma foldl_Zmin_elem x r : foldl Z.min x r ∈ x :: r.
Proof. apply foldl_pick. intros m y. destruct (Z.min_spec m y) as [[_ ->]|[_ ->]]; auto. Qed.

Lemma foldl_Zmax_elem x r : foldl Z.max x r ∈ x :: r.
Proof. apply foldl_pick. intros m y. destruct (Z.max_spec m y) as [[_ ->]|[_ ->]]; auto. Qed.

Lemma foldl_Zmin_le x r z : z ∈ x :: r → (foldl Z.min x r ≤ z)%Z.
Proof.
  revert x z. induction r as [|y r IH]; intros x z Hz; cbn [foldl].
  - apply list_elem_of_singleton in Hz as ->. done.
  - assert (Hm : (foldl Z.min (Z.min x y) r ≤ Z.min x y)%Z) by (apply IH; left).
    apply elem_of_cons in Hz as [->|Hz]; [lia|].
    apply elem_of_cons in Hz as [->|Hz]; [lia|].
    apply IH. by right.
Qed.

Lemma foldl_Zmax_ge x r z : z ∈ x :: r → (z ≤ foldl Z.max x r)%Z.
Proof.
  revert x z. induction r as [|y r IH]; intros x z Hz; cbn [foldl].
  - apply list_elem_of_singleton in Hz as ->. done.
  - assert (Hm : (Z.max x y ≤ foldl Z.max (Z.max x y) r)%Z) by (apply IH; left).
    apply elem_of_cons in Hz as [->|Hz]; [lia|].
    apply elem_of_cons in Hz as [->|Hz]; [lia|].
    apply IH. by right.
Qed.

Lemma wrap_range z : (- 2 ^ 63 ≤ wrap z < 2 ^ 63)%Z.
Proof. unfold wrap. pose proof (Z.mod_pos_bound (z + 2 ^ 63) (2 ^ 64)). lia. Qed.

Lemma wrap_small z : (- 2 ^ 63 ≤ z < 2 ^ 63)%Z → wrap z = z.
Proof. intros Hz. unfold wrap. rewrite Z.mod_small; lia. Qed.

End mixed_tables.

(** ** Rounded arithmetic: float64 columns *)

Module RoundedFacts.
Import Exact ExactDefs OrderDefs ExactFacts ExactOrder Mixed Rounded MixedDefs.
Local Open Scope Qc_scope.

(** *** Rounding and the order *)

Section rounding.
Context (R : Rounding) (HR : lawful R).
#[local] Existing Instance dtype | 0.
#[local] Existing Instance int_rounded.

Lemma rnd_notnan q : isnan (rnd q) = false.
Proof. pose proof (rnd_mono R HR q q (Qcle_refl q)) as H. by destruct (rnd q). Qed.

Lemma round_isnan x : isnan (round x) = isnan x.
Proof. destruct x as [|b|q]; cbn; try done. apply rnd_notnan. Qed.

Lemma round_mono x y : leb x y = true → leb (round x) (round y) = true.
Proof.
  destruct x as [|[]|p], y as [|[]|q]; cbn; try done.
  - intros _. pose proof (rnd_notnan q). by destruct (rnd q).
  - intros _. pose proof (rnd_notnan p). by destruct (rnd p) as [|[]|].
  - rewrite bool_decide_eq_true. apply (rnd_mono R HR).
Qed.

Lemma round_zero : round (Num 0) = Num 0.
Proof. apply (rnd_zero R HR). Qed.

Lemma round_one : round (Num 1) = Num 1.
Proof. apply (rnd_one R HR). Qed.

Lemma round_round x : round (round x) = round x.
Proof.
  destruct x as [|b|q]; cbn; try done.
  destruct (rnd q) as [|b|q'] eqn:Hq; cbn; try done.
  by apply (rnd_idem R HR q).
Qed.

Lemma round_nonneg y : nonneg_or_nan y → nonneg_or_nan (round y).
Proof.
  destruct y as [|b|q]; cbn; try done. intros Hq.
  pose proof (rnd_mono R HR 0 q Hq) as Hle. rewrite (rnd_zero R HR) in Hle.
  destruct (rnd q) as [|[]|q']; cbn in *; try done.
  by apply bool_decide_eq_true in Hle.
Qed.

Lemma round_unit y : unit_interval y → unit_interval (round y).
Proof.
  destruct y as [|b|q]; cbn; try done. intros [H0 H1].
  pose proof (rnd_mono R HR 0 q H0) as Hlo. rewrite (rnd_zero R HR) in Hlo.
  pose proof (rnd_mono R HR q 1 H1) as Hhi. rewrite (rnd_one R HR) in Hhi.
  destruct (rnd q) as [|[]|q']; cbn in *; try done.
  apply bool_decide_eq_true in Hlo, Hhi. done.
Qed.

(** Exact subtraction of a fixed value keeps the order. *)
Lemma sub_mono x y c :
  leb x y = true →
  isnan (Exact.sub x c) = false → isnan (Exact.sub y c) = false →
  leb (Exact.sub x c) (Exact.sub y c) = true.
Proof.
  destruct x as [|[]|p], y as [|[]|q], c as [|[]|r]; cbn; try done.
  rewrite !bool_decide_eq_true. intros Hle _ _. by apply Qcplus_le_compat.
Qed.

Lemma rsub_mono x y c :
  leb x y = true →
  isnan (f_sub x c) = false → isnan (f_sub y c) = false →
  leb (f_sub x c) (f_sub y c) = true.
Proof.
  cbn. unfold sub. rewrite !round_isnan. intros Hle Hx Hy.
  by apply round_mono, sub_mono.
Qed.

(** *** The shifted column *)

(** The reductions compare and do not round. *)
Lemma Series_min_exact (s : Series xfloat) :
  Series_min s = Series_min (Dtype0 := xfloat_dtype) s.
Proof. reflexivity. Qed.

Lemma Series_max_exact (s : Series xfloat) :
  Series_max s = Series_max (Dtype0 := xfloat_dtype) s.
Proof. reflexivity. Qed.

Lemma rsub_min_nonneg (s : Series xfloat) x :
  x ∈ s → nonneg_or_nan (f_sub x (Series_min s)).
Proof. intros Hx. cbn. unfold sub. by apply round_nonneg, sub_min_nonneg. Qed.

Section shifted.
Context (s : Series xfloat).
Let lo := Series_min s.
Let t := Series_sub s lo.
Let hi := Series_max t.

Lemma elem_of_shifted x : x ∈ s → f_sub x lo ∈ t.
Proof. intros Hx. unfold t, Series_sub. by apply (list_elem_of_fmap_2 (λ x, f_sub x lo)). Qed.

Lemma shifted_inv y : y ∈ t → ∃ x, x ∈ s ∧ y = f_sub x lo.
Proof.
  unfold t, Series_sub. intros (x & -> & Hx)%list_elem_of_fmap. by exists x.
Qed.

Lemma rshifted_max_nonneg : nonneg_or_nan hi.
Proof.
  unfold hi. destruct (dropna t) as [|a r] eqn:Hd.
  - unfold Series_max. by rewrite Hd.
  - assert (Hne : dropna t ≠ []) by (by rewrite Hd).
    apply (Series_max_elem t), elem_of_dropna in Hne as [Hin _].
    apply shifted_inv in Hin as (x & Hx & ->). by apply rsub_min_nonneg.
Qed.

Lemma shifted_upper x :
  x ∈ s → isnan (f_sub x lo) = false → leb (f_sub x lo) hi = true.
Proof.
  intros Hx Hnan. apply (Series_max_upper t), elem_of_dropna.
  split; [by apply elem_of_shifted|done].
Qed.

End shifted.

(** *** Dividing a shifted column by its maximum

    What [normalize_lc] does after the subtraction, for any column [ys] of
    values that are not negative and an upper bound [hi] of them that, when
    it is a number other than 0, is one of them next to a 0. *)

Lemma fill0_round d : fill0 (round d) = if isnan d then Num 0 else round d.
Proof. unfold fill0. by rewrite round_isnan. Qed.

Lemma fill0_round_zero d : fill0 d = Num 0 → fill0 (round d) = Num 0.
Proof.
  rewrite fill0_round. unfold fill0. destruct d as [|b|q]; cbn; try done.
  intros [= ->]. apply (rnd_zero R HR).
Qed.

Lemma fill0_zero_div hi : nonneg_or_nan hi → fill0 (f_div (Num 0) hi) = Num 0.
Proof.
  destruct hi as [|[]|h]; cbn; try done.
  - intros _. unfold zeroQ. by rewrite (rnd_zero R HR).
  - intros _. unfold div, fill0. cbn. unfold zeroQ.
    rewrite (bool_decide_true (0 = 0)) by done. case_bool_decide; [done|].
    cbn. replace (0 / h) with 0 by (symmetry; apply Qcmult_0_l).
    by rewrite (rnd_zero R HR).
Qed.

Lemma dropna_all (o : Series xfloat) :
  Forall (λ x, isnan x = false) o → dropna o = o.
Proof.
  induction 1 as [|x o Hx _ IH]; [done|].
  change (dropna (x :: o)) with (if notna x then x :: dropna o else dropna o).
  unfold notna. cbn [f_isnan dtype]. rewrite Hx. cbn. by rewrite IH.
Qed.

Lemma dropna_none (o : Series xfloat) :
  Forall (λ x, isnan x = true) o → dropna o = [].
Proof.
  induction 1 as [|x o Hx _ IH]; [done|].
  change (dropna (x :: o)) with (if notna x then x :: dropna o else dropna o).
  unfold notna. cbn [f_isnan dtype]. rewrite Hx. cbn. by rewrite IH.
Qed.

Lemma unit_interval_notnan o : unit_interval o → isnan o = false.
Proof. by destruct o. Qed.

Section quotients.
Context (ys : Series xfloat) (hi : xfloat).
Hypothesis ys_nonneg : ∀ y, y ∈ ys → nonneg_or_nan y.
Hypothesis hi_nonneg : nonneg_or_nan hi.
Hypothesis hi_upper : ∀ y, y ∈ ys → isnan y = false → leb y hi = true.
Hypothesis hi_attained : ∀ h, hi = Num h → h ≠ 0 → hi ∈ ys ∧ Num 0 ∈ ys.
Let out := fillna (Series_div ys hi) f_zero.

Lemma quotients_entries : out = (λ y, fill0 (f_div y hi)) <$> ys.
Proof. unfold out, fillna, Series_div. by rewrite <- list_fmap_compose. Qed.

Lemma quotient_entry y :
  y ∈ ys → isnan (f_div y hi) = true ∨ unit_interval (f_div y hi).
Proof.
  intros Hy. destruct (div_unit_or_nan y hi) as [Hnan|Hunit]; auto.
  - left. cbn. unfold div. by rewrite round_isnan.
  - right. cbn. unfold div. by apply round_unit.
Qed.

Lemma quotients_unit_interval : Forall unit_interval out.
Proof.
  rewrite quotients_entries. apply Forall_fmap, Forall_forall.
  intros y Hy. cbn [compose]. unfold fill0.
  destruct (quotient_entry y Hy) as [Hnan|Hunit].
  - rewrite Hnan. cbn. done.
  - by rewrite (unit_interval_notnan _ Hunit).
Qed.

Lemma quotients_representable : Forall representable out.
Proof.
  rewrite quotients_entries. apply Forall_fmap, Forall_forall.
  intros y Hy. cbn [compose]. unfold fill0.
  destruct (isnan _) eqn:Hnan.
  - apply round_zero.
  - cbn. unfold div. apply round_round.
Qed.

(** The quotients are all zeros, or, when [hi] is a number other than 0,
    they hold both a 0 and a 1. *)
Lemma quotients_shape :
  ((∀ h, hi = Num h → h = 0) ∧ out = replicate (length ys) (Num 0))
  ∨ (Num 0 ∈ out ∧ Num 1 ∈ out).
Proof.
  rewrite quotients_entries. destruct hi as [|b|h] eqn:Hhi.
  - left. split; [done|]. apply const_fmap. intros i y _. cbn. unfold div.
    apply fill0_round_zero, fill_div_NaN.
  - left. split; [done|]. cbn in hi_nonneg. subst b. apply const_fmap. intros i y _.
    cbn. unfold div. apply fill0_round_zero, fill_div_Inf.
  - destruct (decide (h = 0)) as [->|Hh0].
    + left. split; [by intros ? [= <-]|].
      apply const_fmap. intros i y Hy%list_elem_of_lookup_2.
      cbn. unfold div. apply fill0_round_zero, fill_div_zero; auto.
    + right. destruct (hi_attained h eq_refl Hh0) as [Hin H0]. split.
      * apply list_elem_of_fmap. exists (Num 0). split; [|done].
        cbn. unfold div. cbn. unfold zeroQ. rewrite bool_decide_false by done.
        cbn. replace (0 / h) with 0 by (symmetry; apply Qcmult_0_l).
        by rewrite (rnd_zero R HR).
      * apply list_elem_of_fmap. exists (Num h). split; [|done].
        cbn. unfold div. cbn. unfold zeroQ. rewrite bool_decide_false by done.
        cbn. replace (h / h) with 1 by (symmetry; by apply Qcmult_inv_r).
        by rewrite (rnd_one R HR).
Qed.

(** The quotients keep the order of the values. *)
Lemma quotient_mono y1 y2 :
  y1 ∈ ys → y2 ∈ ys → leb y1 y2 = true →
  leb (fill0 (f_div y1 hi)) (fill0 (f_div y2 hi)) = true.
Proof.
  clear hi_attained. intros Hy1 Hy2 Hle.
  assert (H00 : leb (Num 0) (Num 0) = true) by (cbn; by apply bool_decide_eq_true).
  destruct hi as [|b|h] eqn:Hhi.
  - cbn. unfold div. by rewrite !(fill0_round_zero _ (fill_div_NaN _)).
  - cbn in hi_nonneg. subst b.
    cbn. unfold div. by rewrite !(fill0_round_zero _ (fill_div_Inf _)).
  - destruct (decide (h = 0)) as [->|Hh0].
    + cbn. unfold div.
      rewrite (fill0_round_zero _ (fill_div_zero y1 (ys_nonneg _ Hy1) (hi_upper _ Hy1))).
      by rewrite (fill0_round_zero _ (fill_div_zero y2 (ys_nonneg _ Hy2) (hi_upper _ Hy2))).
    + assert (Hpos : 0 < h).
      { cbn in hi_nonneg. destruct (Qcle_lt_or_eq _ _ hi_nonneg) as [?|Heq]; [done|].
        by destruct Hh0. }
      pose proof (ys_nonneg _ Hy1) as Hn1. pose proof (ys_nonneg _ Hy2) as Hn2.
      assert (Hnan1 : isnan y1 = false) by (by destruct y1, y2 as [|[]|]).
      assert (Hnan2 : isnan y2 = false) by (by destruct y1 as [|[]|], y2).
      pose proof (hi_upper _ Hy1 Hnan1) as Hu1. pose proof (hi_upper _ Hy2 Hnan2) as Hu2.
      destruct y1 as [|[]|a1]; try done. destruct y2 as [|[]|a2]; try done.
      cbn in Hle. apply bool_decide_eq_true in Hle.
      cbn. unfold div, fill0. cbn. unfold zeroQ. rewrite !bool_decide_false by done.
      cbn. rewrite !rnd_notnan. apply (rnd_mono R HR).
      apply Qcmult_le_compat_r; [done|]. by apply Qclt_le_weak, Qcinv_pos.
Qed.

End quotients.

Lemma unit_min_max (o : Series xfloat) :
  Forall unit_interval o → Num 0 ∈ o → Num 1 ∈ o →
  Series_min o = Num 0 ∧ Series_max o = Num 1.
Proof.
  intros Hunit H0 H1.
  assert (Hnn : Forall (λ x, isnan x = false) o).
  { eapply Forall_impl; [exact Hunit|]. apply unit_interval_notnan. }
  assert (Hne : dropna o ≠ []).
  { rewrite dropna_all by done. intros Hnil. rewrite Hnil in H0. inv H0. }
  pose proof (Series_min_elem o Hne) as Hlo. rewrite dropna_all in Hlo by done.
  pose proof (Series_max_elem o Hne) as Hhi. rewrite dropna_all in Hhi by done.
  split.
  - apply leb_antisym.
    + apply Series_min_lower. by apply elem_of_dropna.
    + pose proof (proj1 (Forall_forall _ _) Hunit _ Hlo) as Hu.
      destruct (Series_min o) as [|b|q]; try done. cbn in *.
      apply bool_decide_eq_true. tauto.
  - apply leb_antisym.
    + pose proof (proj1 (Forall_forall _ _) Hunit _ Hhi) as Hu.
      destruct (Series_max o) as [|b|q]; try done. cbn in *.
      apply bool_decide_eq_true. tauto.
    + apply Series_max_upper. by apply elem_of_dropna.
Qed.

(** A column of numbers of the format between 0 and 1 that is all zeros, or
    holds a 0 and a 1, is normalised already. *)
Lemma normalized_fixpoint (o : Series xfloat) :
  Forall unit_interval o → Forall representable o →
  (o = replicate (length o) (Num 0) ∨ (Num 0 ∈ o ∧ Num 1 ∈ o)) →
  normalize_series o = o.
Proof.
  intros Hunit Hrep Hshape.
  destruct o as [|x0 o0] eqn:Ho; [done|]. rewrite <- Ho in *.
  assert (Hnn : Forall (λ x, isnan x = false) o).
  { eapply Forall_impl; [exact Hunit|]. apply unit_interval_notnan. }
  assert (Hne : dropna o ≠ []) by (rewrite dropna_all, Ho; done).
  pose proof (Series_min_elem o Hne) as Hlo. rewrite dropna_all in Hlo by done.
  pose proof (Series_max_elem o Hne) as Hhi. rewrite dropna_all in Hhi by done.
  assert (Hbounds : Series_min o = Num 0
                    ∧ (Series_max o = Num 0 ∧ o = replicate (length o) (Num 0)
                       ∨ Series_max o = Num 1)).
  { destruct Hshape as [Hz|[H0 H1]].
    - assert (Hall : ∀ x, x ∈ o → x = Num 0).
      { intros x Hx. rewrite Hz in Hx. by apply elem_of_replicate in Hx as [? _]. }
      split; [exact (Hall _ Hlo)|left; split; [exact (Hall _ Hhi)|done]].
    - destruct (unit_min_max o Hunit H0 H1) as [Hmin Hmax]. auto. }
  destruct Hbounds as [Hmin Hmax].
  assert (Hsub : Series_sub o (Num 0) = o).
  { unfold Series_sub. etrans; [|apply list_fmap_id].
    apply list_fmap_ext. intros i x Hx%list_elem_of_lookup_2.
    pose proof (proj1 (Forall_forall _ _) Hunit _ Hx) as Hu.
    pose proof (proj1 (Forall_forall _ _) Hrep _ Hx) as Hr.
    destruct x as [|b|q]; try done. cbn. unfold sub. cbn.
    replace (q + - 0) with q by ring. exact Hr. }
  unfold normalize_series. cbn zeta. rewrite Hmin, Hsub.
  rewrite quotients_entries. etrans; [|apply list_fmap_id].
  apply list_fmap_ext. intros i x Hx%list_elem_of_lookup_2.
  pose proof (proj1 (Forall_forall _ _) Hunit _ Hx) as Hu.
  pose proof (proj1 (Forall_forall _ _) Hrep _ Hx) as Hr.
  destruct Hmax as [[Hmax Hz]|Hmax]; rewrite Hmax.
  - rewrite Hz in Hx. apply elem_of_replicate in Hx as [-> _]. done.
  - destruct x as [|b|q]; try done. cbn. unfold div. cbn.
    unfold zeroQ. rewrite bool_decide_false by (exact Q_apart_0_1).
    cbn. replace (q / 1) with q by (field; done).
    unfold representable in Hr. cbn in Hr. rewrite Hr. done.
Qed.

(** *** float64 columns *)

Section float_columns.
Context (s : Series xfloat).
Let lo := Series_min s.
Let t := Series_sub s lo.
Let hi := Series_max t.

Lemma shifted_attained h :
  hi = Num h → h ≠ 0 → hi ∈ t ∧ Num 0 ∈ t.
Proof.
  intros Hhi Hh0.
  assert (Hdt : dropna t ≠ []).
  { intros Hnil. unfold hi, Series_max in Hhi. by rewrite Hnil in Hhi. }
  apply (Series_max_elem t), elem_of_dropna in Hdt as [Hin _]. fold hi in Hin.
  split; [done|].
  rewrite Hhi in Hin. apply shifted_inv in Hin as (x1 & Hx1 & Heq).
  assert (Hlo : ∃ l, Series_min s = Num l).
  { cbn in Heq. unfold sub in Heq.
    destruct (Series_min s) as [|b|l]; [by destruct x1|by destruct x1 as [|[]|], b|eauto]. }
  destruct Hlo as [l Hlo].
  assert (Hds : dropna s ≠ []).
  { intros Hnil. unfold Series_min in Hlo. by rewrite Hnil in Hlo. }
  apply (Series_min_elem s), elem_of_dropna in Hds as [Hlos _].
  apply elem_of_shifted in Hlos. rewrite Hlo in Hlos at 1. rewrite Hlo in Hlos at 1.
  cbn in Hlos. unfold sub in Hlos. cbn in Hlos.
  rewrite Qcplus_opp_r, (rnd_zero R HR) in Hlos. done.
Qed.

Lemma rnormalize_series_unit_interval : Forall unit_interval (normalize_series s).
Proof.
  apply quotients_unit_interval.
  - intros y (x & Hx & ->)%shifted_inv. by apply rsub_min_nonneg.
  - apply rshifted_max_nonneg.
  - intros y (x & Hx & ->)%shifted_inv. by apply shifted_upper.
Qed.

Lemma normalize_series_representable : Forall representable (normalize_series s).
Proof. apply quotients_representable. Qed.

Lemma rnormalize_series_shape :
  ((∀ h, hi = Num h → h = 0) ∧ normalize_series s = replicate (length s) (Num 0))
  ∨ (Num 0 ∈ normalize_series s ∧ Num 1 ∈ normalize_series s).
Proof.
  replace (length s) with (length t) by (unfold t, Series_sub; apply length_fmap).
  apply quotients_shape.
  - intros y (x & Hx & ->)%shifted_inv. by apply rsub_min_nonneg.
  - apply rshifted_max_nonneg.
  - intros y (x & Hx & ->)%shifted_inv. by apply shifted_upper.
  - apply shifted_attained.
Qed.

Lemma normalize_series_length : length (normalize_series s) = length s.
Proof.
  unfold normalize_series, fillna, Series_div, Series_sub. by rewrite !length_fmap.
Qed.

Lemma rnormalize_series_idempotent :
  normalize_series (normalize_series s) = normalize_series s.
Proof.
  apply normalized_fixpoint.
  - apply rnormalize_series_unit_interval.
  - apply normalize_series_representable.
  - rewrite normalize_series_length.
    destruct rnormalize_series_shape as [[_ ?]|?]; auto.
Qed.

(** Rounding keeps the order of the differences, so the maximum of the
    shifted column is the maximum minus the minimum. *)
Lemma sub_nan_between c x mx :
  isnan c = false → isnan (Exact.sub mx c) = true →
  leb c x = true → leb x mx = true → isnan (Exact.sub x c) = true.
Proof. destruct c as [|[]|l], x as [|[]|q], mx as [|[]|M]; cbn; done. Qed.

Lemma shifted_max_eq : dropna s ≠ [] → hi = f_sub (Series_max s) lo.
Proof.
  intros Hne.
  pose proof (Series_min_elem s Hne) as Hlo. apply elem_of_dropna in Hlo as [Hlos Hlonn].
  pose proof (Series_max_elem s Hne) as Hmx. apply elem_of_dropna in Hmx as [Hmxs Hmxnn].
  fold lo in Hlos, Hlonn.
  destruct (isnan (f_sub (Series_max s) lo)) eqn:Hd.
  - assert (Hall : Forall (λ y, isnan y = true) t).
    { unfold t, Series_sub. apply Forall_fmap, Forall_forall. intros x Hx. cbn [compose].
      destruct (isnan x) eqn:Hxn; [by destruct x|].
      cbn. unfold sub. rewrite round_isnan.
      cbn in Hd. unfold sub in Hd. rewrite round_isnan in Hd.
      apply (sub_nan_between lo x (Series_max s)); [done..| |].
      - apply Series_min_lower. by apply elem_of_dropna.
      - apply Series_max_upper. by apply elem_of_dropna. }
    unfold hi, Series_max at 1. rewrite (dropna_none t Hall).
    by destruct (f_sub (Series_max s) lo).
  - assert (Hin : f_sub (Series_max s) lo ∈ dropna t).
    { apply elem_of_dropna. split; [by apply elem_of_shifted|done]. }
    assert (Hdt : dropna t ≠ []) by (intros Hnil; rewrite Hnil in Hin; inv Hin).
    apply (Series_max_elem t), elem_of_dropna in Hdt as [Hhi Hhinn]. fold hi in Hhi, Hhinn.
    apply leb_antisym; [|by apply (Series_max_upper t)].
    apply shifted_inv in Hhi as (x & Hx & Heq). rewrite Heq in Hhinn |- *.
    apply rsub_mono; [|done..].
    apply Series_max_upper, elem_of_dropna. split; [done|].
    destruct x; try done.
Qed.

(** A finite column that is not constant and does not overflow: the
    maximum of the shifted column is a positive number and no quotient is
    NaN. *)
Lemma normalize_series_finite :
  Forall (λ x, finite x = true ∧ representable x) s →
  (∃ x y, x ∈ s ∧ y ∈ s ∧ x ≠ y) →
  (∀ x y, x ∈ s → y ∈ s → finite (f_sub x y) = true) →
  ∃ h, hi = Num h ∧ h ≠ 0
    ∧ normalize_series s = (λ v, f_div (f_sub v lo) hi) <$> s.
Proof.
  intros Hfin (x1 & x2 & Hx1 & Hx2 & Hneq) Hrange.
  assert (Hnn : ∀ x, x ∈ s → isnan x = false).
  { intros x Hx. apply (proj1 (Forall_forall _ _) Hfin) in Hx as [Hx _]. by destruct x. }
  assert (Hne : dropna s ≠ []).
  { intros Hnil. assert (Hin : x1 ∈ dropna s) by (apply elem_of_dropna; auto).
    rewrite Hnil in Hin. inv Hin. }
  pose proof (Series_min_elem s Hne) as Hlo. apply elem_of_dropna in Hlo as [Hlos _].
  pose proof (Series_max_elem s Hne) as Hmx. apply elem_of_dropna in Hmx as [Hmxs _].
  fold lo in Hlos.
  pose proof (shifted_max_eq Hne) as Hhi.
  pose proof (Hrange _ _ Hmxs Hlos) as Hhfin. rewrite <- Hhi in Hhfin.
  destruct hi as [|b|h] eqn:Hhieq; try done. exists h.
  assert (Hlower : ∀ x, x ∈ s → leb lo x = true).
  { intros x Hx. apply Series_min_lower, elem_of_dropna. auto. }
  assert (Hupper : ∀ x, x ∈ s → leb x (Series_max s) = true).
  { intros x Hx. apply Series_max_upper, elem_of_dropna. auto. }
  assert (Hh0 : h ≠ 0).
  { intros ->.
    pose proof (proj1 (Forall_forall _ _) Hfin _ Hlos) as [Hlf Hlr].
    pose proof (proj1 (Forall_forall _ _) Hfin _ Hmxs) as [Hmf Hmr].
    destruct lo as [|b|l] eqn:Hloeq; try done.
    destruct (Series_max s) as [|b|M] eqn:Hmxeq; try done.
    assert (HM : M = l) by (apply (rnd_sub_apart R HR); done).
    subst M.
    assert (Hall : ∀ x, x ∈ s → x = Num l).
    { intros x Hx. apply leb_antisym; [by apply Hupper|by apply Hlower]. }
    apply Hneq. by rewrite (Hall _ Hx1), (Hall _ Hx2). }
  split_and!; [done..|].
  unfold normalize_series. cbn zeta. rewrite quotients_entries. fold lo t hi.
  unfold t, Series_sub. rewrite <- list_fmap_compose. rewrite Hhieq.
  apply list_fmap_ext. intros i v Hv%list_elem_of_lookup_2. cbn [compose].
  pose proof (Hrange _ _ Hv Hlos) as Hvf.
  destruct (f_sub v lo) as [|b|y]; try done.
  cbn. unfold div, fill0. cbn. unfold zeroQ. rewrite bool_decide_false by done.
  cbn. by rewrite rnd_notnan.
Qed.

End float_columns.

(** *** int64 columns *)

Local Abbreviation of_int := (Mixed.of_int (F := xfloat)).

Lemma inject_le a b : (a ≤ b)%Z → Q2Qc (inject_Z a) ≤ Q2Qc (inject_Z b).
Proof.
  intros Hab. unfold Qcle. cbn [this Q2Qc]. rewrite !Qred_correct.
  by rewrite <- Zle_Qle.
Qed.

Lemma of_int_mono a b : (a ≤ b)%Z → leb (of_int a) (of_int b) = true.
Proof. intros Hab. by apply (rnd_mono R HR), inject_le. Qed.

Lemma of_int_zero : of_int 0%Z = Num 0.
Proof. apply (rnd_zero R HR). Qed.

Lemma of_int_one : of_int 1%Z = Num 1.
Proof. apply (rnd_one R HR). Qed.

Lemma of_int_nonneg a : (0 ≤ a)%Z → nonneg_or_nan (of_int a).
Proof.
  intros Ha. apply (round_nonneg (Num (Q2Qc (inject_Z a)))). cbn.
  by apply (inject_le 0 a).
Qed.

Lemma of_int_representable a : representable (of_int a).
Proof. apply (round_round (Num (Q2Qc (inject_Z a)))). Qed.

Lemma foldl_Zmax_shift (m x : Z) (r : list Z) :
  foldl Z.max (x - m)%Z ((λ z, z - m)%Z <$> r) = (foldl Z.max x r - m)%Z.
Proof.
  revert x. induction r as [|y r IH]; intros x; [done|].
  cbn [fmap list_fmap foldl]. rewrite <- IH. f_equal. lia.
Qed.

Section int_columns.
Context (x : Z) (r : list Z).
Let l := x :: r.
Hypothesis l_no_wrap : ∀ a b, a ∈ l → b ∈ l → wrap (a - b) = (a - b)%Z.
Let m := foldl Z.min x r.
Let M := foldl Z.max x r.

Lemma int_min_max : m ∈ l ∧ M ∈ l ∧ ∀ z, z ∈ l → (m ≤ z ≤ M)%Z.
Proof.
  split_and!; [apply foldl_Zmin_elem|apply foldl_Zmax_elem|].
  intros z Hz. split; [by apply foldl_Zmin_le|by apply foldl_Zmax_ge].
Qed.

Lemma int_shifted :
  column_sub (IntCol l) (column_min (IntCol l)) = IntCol ((λ z, z - m)%Z <$> l).
Proof.
  cbn [column_min column_sub l]. f_equal. fold l m.
  apply list_fmap_ext. intros i z Hz%list_elem_of_lookup_2.
  apply l_no_wrap; [done|]. apply int_min_max.
Qed.

Lemma int_shifted_max :
  column_max (column_sub (IntCol l) (column_min (IntCol l))) = IntS (M - m).
Proof.
  rewrite int_shifted. unfold l. cbn [fmap list_fmap column_max].
  f_equal. apply foldl_Zmax_shift.
Qed.

Lemma normalize_column_int :
  normalize_column (IntCol l)
  = fillna (Series_div (of_int <$> ((λ z, z - m)%Z <$> l)) (of_int (M - m))) f_zero.
Proof.
  unfold normalize_column. cbn zeta. rewrite int_shifted_max, int_shifted. reflexivity.
Qed.

Lemma int_spread_range : (0 ≤ M - m < 2 ^ 63)%Z.
Proof.
  destruct int_min_max as (Hm & HM & Hb).
  pose proof (l_no_wrap M m HM Hm) as Hw. pose proof (wrap_range (M - m)) as Hr.
  rewrite Hw in Hr. specialize (Hb m Hm). lia.
Qed.

Lemma int_quotients_nonneg y :
  y ∈ of_int <$> ((λ z, z - m)%Z <$> l) → nonneg_or_nan y.
Proof.
  intros (d & -> & (z & -> & Hz)%list_elem_of_fmap)%list_elem_of_fmap.
  apply of_int_nonneg. destruct int_min_max as (_ & _ & Hb). specialize (Hb z Hz). lia.
Qed.

Lemma int_quotients_upper y :
  y ∈ of_int <$> ((λ z, z - m)%Z <$> l) → isnan y = false → leb y (of_int (M - m)) = true.
Proof.
  intros (d & -> & (z & -> & Hz)%list_elem_of_fmap)%list_elem_of_fmap _.
  apply of_int_mono. destruct int_min_max as (_ & _ & Hb). specialize (Hb z Hz). lia.
Qed.

Lemma int_quotients_attained h :
  of_int (M - m) = Num h → h ≠ 0 →
  of_int (M - m) ∈ of_int <$> ((λ z, z - m)%Z <$> l)
  ∧ Num 0 ∈ of_int <$> ((λ z, z - m)%Z <$> l).
Proof.
  intros _ _. destruct int_min_max as (Hm & HM & _). split.
  - apply (list_elem_of_fmap_2 of_int).
    by apply (list_elem_of_fmap_2 (λ z, z - m)%Z).
  - rewrite <- of_int_zero. apply (list_elem_of_fmap_2 of_int).
    replace 0%Z with (m - m)%Z by lia.
    by apply (list_elem_of_fmap_2 (λ z, z - m)%Z).
Qed.

Lemma normalize_column_int_unit_interval :
  Forall unit_interval (normalize_column (IntCol l)).
Proof.
  rewrite normalize_column_int. apply quotients_unit_interval.
  - apply int_quotients_nonneg.
  - apply of_int_nonneg. pose proof int_spread_range. lia.
  - apply int_quotients_upper.
Qed.

Lemma normalize_column_int_shape :
  ((∀ h, of_int (M - m) = Num h → h = 0)
   ∧ normalize_column (IntCol l) = replicate (length l) (Num 0))
  ∨ (Num 0 ∈ normalize_column (IntCol l) ∧ Num 1 ∈ normalize_column (IntCol l)).
Proof.
  rewrite normalize_column_int.
  replace (length l) with (length (of_int <$> ((λ z, z - m)%Z <$> l)))
    by (by rewrite !length_fmap).
  apply quotients_shape.
  - apply int_quotients_nonneg.
  - apply of_int_nonneg. pose proof int_spread_range. lia.
  - apply int_quotients_upper.
  - apply int_quotients_attained.
Qed.

(** When the column is not constant and its spread converts to a finite
    float, no quotient is NaN. *)
Lemma normalize_column_int_finite :
  holds_int64 R → (∃ a b, a ∈ l ∧ b ∈ l ∧ a ≠ b) →
  ∃ h, of_int (M - m) = Num h ∧ h ≠ 0
    ∧ normalize_column (IntCol l)
      = (λ z, f_div (of_int (z - m)) (of_int (M - m))) <$> l.
Proof.
  intros Hint (a & b & Ha & Hb & Hab).
  destruct int_min_max as (Hm & HM & Hbd). pose proof int_spread_range as Hr.
  assert (Hpos : (1 ≤ M - m)%Z).
  { pose proof (Hbd a Ha). pose proof (Hbd b Hb). lia. }
  destruct (Hint (M - m)%Z) as [h Hh]; [lia|]. exists h.
  assert (H1h : 1 ≤ h).
  { pose proof (of_int_mono 1 (M - m) Hpos) as Hle.
    rewrite of_int_one in Hle. unfold Mixed.of_int, int_rounded in Hle.
    rewrite Hh in Hle. cbn in Hle. by apply bool_decide_eq_true in Hle. }
  assert (Hh0 : h ≠ 0).
  { intros ->. apply Qcle_not_lt in H1h. by apply H1h. }
  split_and!; [done..|].
  rewrite normalize_column_int, quotients_entries, <- !list_fmap_compose.
  apply list_fmap_ext. intros i z Hz%list_elem_of_lookup_2. cbn [compose].
  specialize (Hbd z Hz).
  pose proof (of_int_mono 0 (z - m) ltac:(lia)) as Hlo. rewrite of_int_zero in Hlo.
  pose proof (of_int_mono (z - m) (M - m) ltac:(lia)) as Hhi.
  unfold Mixed.of_int, int_rounded in *. rewrite Hh in Hhi |- *.
  destruct (rnd (Q2Qc (inject_Z (z - m)))) as [|[]|q]; try done.
  cbn. unfold div, fill0. cbn. unfold zeroQ. rewrite bool_decide_false by done.
  cbn. by rewrite rnd_notnan.
Qed.

End int_columns.

(** *** Columns of either kind *)

Lemma no_wrap_ints (l : list Z) :
  (∀ a b, a ∈ entries (IntCol l) → b ∈ entries (IntCol l) → no_wrap a b) →
  ∀ a b, a ∈ l → b ∈ l → wrap (a - b) = (a - b)%Z.
Proof.
  intros Hw a b Ha Hb.
  apply (Hw (IntS a) (IntS b)); by apply (list_elem_of_fmap_2 IntS).
Qed.

Lemma normalize_column_length (col : column xfloat) :
  length (normalize_column col) = length (entries col).
Proof.
  destruct col as [[|x r]|s]; [done| |].
  - unfold normalize_column, fillna, column_div, Series_div.
    rewrite !length_fmap. cbn [column_min column_sub values entries].
    by rewrite !length_fmap.
  - rewrite normalize_column_float, normalize_series_length. cbn. by rewrite length_fmap.
Qed.

Lemma normalize_column_unit_interval (col : column xfloat) :
  (∀ a b, a ∈ entries col → b ∈ entries col → no_wrap a b) →
  Forall unit_interval (normalize_column col).
Proof.
  intros Hw. destruct col as [[|x r]|s].
  - constructor.
  - by apply normalize_column_int_unit_interval, no_wrap_ints.
  - apply rnormalize_series_unit_interval.
Qed.

Lemma normalize_column_representable (col : column xfloat) :
  Forall representable (normalize_column col).
Proof. apply quotients_representable. Qed.

Lemma normalize_column_shape (col : column xfloat) :
  (∀ a b, a ∈ entries col → b ∈ entries col → no_wrap a b) →
  ((∀ h, to_float (column_max (column_sub col (column_min col))) = Num h → h = 0)
   ∧ normalize_column col = replicate (length (entries col)) (Num 0))
  ∨ (Num 0 ∈ normalize_column col ∧ Num 1 ∈ normalize_column col).
Proof.
  intros Hw. destruct col as [[|x r]|s].
  - by left.
  - cbn [entries]. rewrite length_fmap, int_shifted_max by (by apply no_wrap_ints).
    by apply normalize_column_int_shape, no_wrap_ints.
  - cbn [entries]. rewrite length_fmap. apply rnormalize_series_shape.
Qed.

(** A column that is already normalised, as a float64 column. *)
Lemma normalize_column_idempotent (col : column xfloat) :
  (∀ a b, a ∈ entries col → b ∈ entries col → no_wrap a b) →
  normalize_column (FloatCol (normalize_column col)) = normalize_column col.
Proof.
  intros Hw. rewrite normalize_column_float. apply normalized_fixpoint.
  - by apply normalize_column_unit_interval.
  - apply normalize_column_representable.
  - rewrite normalize_column_length.
    destruct (normalize_column_shape col Hw) as [[_ ?]|?]; auto.
Qed.

Lemma number_floats (s : Series xfloat) :
  Forall number (entries (FloatCol s)) →
  Forall (λ x, finite x = true ∧ representable x) s.
Proof. intros Hnum. by apply (proj1 (Forall_fmap _ _ _)) in Hnum. Qed.

Lemma number_floats_dropna (s : Series xfloat) x :
  Forall number (entries (FloatCol s)) → x ∈ s → x ∈ dropna s.
Proof.
  intros Hnum Hx. apply elem_of_dropna. split; [done|].
  apply number_floats in Hnum.
  apply (proj1 (Forall_forall _ _) Hnum) in Hx as [Hx _]. by destruct x.
Qed.

Lemma number_floats_nonempty (s : Series xfloat) a :
  Forall number (entries (FloatCol s)) → a ∈ entries (FloatCol s) → dropna s ≠ [].
Proof.
  intros Hnum (a' & -> & Ha')%list_elem_of_fmap Hnil.
  pose proof (number_floats_dropna s a' Hnum Ha') as Hin.
  change (@dropna xfloat xfloat_dtype s) with (dropna s) in Hin.
  rewrite Hnil in Hin. inv Hin.
Qed.

(** Numbers that are not all equal and whose differences stay in range. *)
Lemma normalize_column_finite (col : column xfloat) :
  holds_int64 R →
  Forall number (entries col) →
  (∃ x y, x ∈ entries col ∧ y ∈ entries col ∧ x ≠ y) →
  (∀ x y, x ∈ entries col → y ∈ entries col → sub_in_range x y) →
  let lo := column_min col in
  let hi := column_max (column_sub col lo) in
  (∃ h, to_float hi = Num h ∧ h ≠ 0)
  ∧ hi = scalar_sub (column_max col) lo
  ∧ normalize_column col = (λ v, scalar_div (scalar_sub v lo) hi) <$> entries col.
Proof.
  intros Hint Hnum (a & b & Ha & Hb & Hab) Hrange. destruct col as [[|x r]|s].
  - inv Ha.
  - assert (Hw : ∀ a b, a ∈ x :: r → b ∈ x :: r → wrap (a - b) = (a - b)%Z).
    { intros a' b' Ha' Hb'.
      apply (Hrange (IntS a') (IntS b')); by apply (list_elem_of_fmap_2 IntS). }
    cbn zeta. rewrite int_shifted_max by done.
    destruct (normalize_column_int_finite x r Hw Hint) as (h & Hh & Hh0 & Hout).
    { cbn [entries] in Ha, Hb.
      apply list_elem_of_fmap in Ha as (a' & -> & Ha').
      apply list_elem_of_fmap in Hb as (b' & -> & Hb').
      exists a', b'. split_and!; [done..|]. congruence. }
    destruct (int_min_max x r) as (Hm & HM & _).
    split_and!.
    + by exists h.
    + cbn. by rewrite Hw.
    + rewrite Hout. cbn [entries]. rewrite <- list_fmap_compose.
      apply list_fmap_ext. intros i z Hz%list_elem_of_lookup_2. cbn.
      by rewrite Hw.
  - pose proof (number_floats_nonempty s a Hnum Ha) as Hne.
    apply number_floats in Hnum.
    cbn zeta. cbn [column_min column_sub column_max values to_float entries] in *.
    destruct (normalize_series_finite s) as (h & Hh & Hh0 & Hout).
    { exact Hnum. }
    { apply list_elem_of_fmap in Ha as (a' & -> & Ha').
      apply list_elem_of_fmap in Hb as (b' & -> & Hb').
      exists a', b'. split_and!; [done..|]. congruence. }
    { intros x y Hx Hy.
      apply (Hrange (FloatS x) (FloatS y)); by apply (list_elem_of_fmap_2 FloatS). }
    split_and!.
    + by exists h.
    + cbn. f_equal. by apply shifted_max_eq.
    + rewrite normalize_column_float, Hout, <- list_fmap_compose. reflexivity.
Qed.

(** The normalised column entry by entry. *)
Lemma normalize_column_entries (col : column xfloat) :
  (∀ a b, a ∈ entries col → b ∈ entries col → no_wrap a b) →
  let lo := column_min col in
  let hi := to_float (column_max (column_sub col lo)) in
  normalize_column col
  = (λ v, fill0 (f_div (to_float (scalar_sub v lo)) hi)) <$> entries col.
Proof.
  intros Hw. cbn zeta. destruct col as [[|x r]|s]; [done| |].
  - pose proof (no_wrap_ints _ Hw) as Hw'.
    rewrite int_shifted_max by done. rewrite normalize_column_int by done.
    rewrite quotients_entries. cbn [entries]. rewrite <- !list_fmap_compose.
    apply list_fmap_ext. intros i c Hc%list_elem_of_lookup_2. cbn.
    rewrite Hw'; [done..|]. apply foldl_Zmin_elem.
  - rewrite normalize_column_float. unfold normalize_series. cbn zeta.
    rewrite quotients_entries. cbn [entries]. unfold Series_sub.
    by rewrite <- !list_fmap_compose.
Qed.

Lemma sub_nan_above c x1 x2 :
  leb c x1 = true → leb x1 x2 = true →
  isnan (Exact.sub x2 c) = true → isnan (Exact.sub x1 c) = true.
Proof. destruct c as [|[]|l], x1 as [|[]|q], x2 as [|[]|M]; cbn; done. Qed.

Lemma normalize_column_mono (col : column xfloat) v1 v2 :
  (∀ a b, a ∈ entries col → b ∈ entries col → no_wrap a b) →
  v1 ∈ entries col → v2 ∈ entries col → scalar_leb v1 v2 = true →
  let lo := column_min col in
  let hi := to_float (column_max (column_sub col lo)) in
  leb (fill0 (f_div (to_float (scalar_sub v1 lo)) hi))
      (fill0 (f_div (to_float (scalar_sub v2 lo)) hi)) = true.
Proof.
  intros Hw Hv1 Hv2 Hle. cbn zeta. destruct col as [[|x r]|s]; [inv Hv1| |].
  - pose proof (no_wrap_ints _ Hw) as Hw'.
    cbn [entries] in Hv1, Hv2.
    apply list_elem_of_fmap in Hv1 as (z1 & -> & Hz1).
    apply list_elem_of_fmap in Hv2 as (z2 & -> & Hz2).
    cbn in Hle. apply bool_decide_eq_true in Hle.
    rewrite int_shifted_max by done. cbn [column_min scalar_sub to_float].
    rewrite !Hw' by (done || apply foldl_Zmin_elem).
    apply (quotient_mono (of_int <$> ((λ c, c - foldl Z.min x r)%Z <$> (x :: r)))).
    + apply (int_quotients_nonneg x r).
    + apply of_int_nonneg. pose proof (int_spread_range x r Hw'). lia.
    + apply (int_quotients_upper x r).
    + apply (list_elem_of_fmap_2 of_int).
      by apply (list_elem_of_fmap_2 (λ c, c - foldl Z.min x r)%Z).
    + apply (list_elem_of_fmap_2 of_int).
      by apply (list_elem_of_fmap_2 (λ c, c - foldl Z.min x r)%Z).
    + apply of_int_mono. lia.
  - cbn [entries] in Hv1, Hv2.
    apply list_elem_of_fmap in Hv1 as (x1 & -> & Hx1).
    apply list_elem_of_fmap in Hv2 as (x2 & -> & Hx2).
    cbn [scalar_leb to_float] in Hle.
    cbn [column_min column_sub column_max scalar_sub to_float values].
    set (lo := Series_min s). set (hi := Series_max (Series_sub s lo)).
    assert (Hnan1 : isnan x1 = false) by (by destruct x1, x2 as [|[]|]).
    assert (Hnan2 : isnan x2 = false) by (by destruct x1 as [|[]|], x2).
    assert (Hlo1 : leb lo x1 = true).
    { apply Series_min_lower. by apply elem_of_dropna. }
    destruct (isnan (f_sub x1 lo)) eqn:Hy1.
    + assert (Hz : fill0 (f_div (f_sub x1 lo) hi) = Num 0).
      { destruct (f_sub x1 lo); try done. }
      rewrite Hz.
      pose proof (rnormalize_series_unit_interval s) as Hunit.
      unfold normalize_series in Hunit. cbn zeta in Hunit.
      rewrite quotients_entries in Hunit. fold lo hi in Hunit.
      apply (proj1 (Forall_fmap _ _ _)) in Hunit.
      pose proof (proj1 (Forall_forall _ _) Hunit _ (elem_of_shifted s x2 Hx2)) as Hu.
      cbn [compose] in Hu. fold lo in Hu.
      destruct (fill0 (f_div (f_sub x2 lo) hi)) as [|b|q]; try done.
      cbn. apply bool_decide_eq_true. cbn in Hu. tauto.
    + assert (Hy2 : isnan (f_sub x2 lo) = false).
      { cbn in Hy1 |- *. unfold sub in *. rewrite round_isnan in *.
        destruct (isnan (Exact.sub x2 lo)) eqn:Hs2; [|done].
        by rewrite (sub_nan_above lo x1 x2) in Hy1. }
      apply (quotient_mono (Series_sub s lo)).
      * intros y (x' & Hx' & ->)%shifted_inv. by apply rsub_min_nonneg.
      * apply rshifted_max_nonneg.
      * intros y (x' & Hx' & ->)%shifted_inv. by apply shifted_upper.
      * by apply elem_of_shifted.
      * by apply elem_of_shifted.
      * by apply rsub_mono.
Qed.

(** *** The claims about [normalize_lc] *)


(** X12: [normalize_lc] keeps the order of the values that are not NaN, on
    float64 columns and on int64 columns whose differences do not wrap
    around: a row with a value at most that of another row gets an output
    at most that of the other row. *)
Theorem normalize_lc_monotone (df : Table xfloat) (mag_col : string)
    (col : column xfloat) (out : Series xfloat) (i j : nat)
    (vi vj : scalar xfloat) (oi oj : xfloat) :
  df !! mag_col = Some col →
  (∀ a b, a ∈ entries col → b ∈ entries col → no_wrap a b) →
  Mixed.normalize_lc df mag_col = Ok out →
  entries col !! i = Some vi → entries col !! j = Some vj →
  scalar_leb vi vj = true →
  out !! i = Some oi → out !! j = Some oj →
  f_leb oi oj = true.
Proof.
  intros Hcol Hw Hout Hvi Hvj Hle Hoi Hoj.
  rewrite normalize_lc_column, Hcol in Hout. injection Hout as <-.
  rewrite normalize_column_entries in Hoi, Hoj by done.
  rewrite list_lookup_fmap, Hvi in Hoi. rewrite list_lookup_fmap, Hvj in Hoj.
  injection Hoi as <-. injection Hoj as <-.
  apply normalize_column_mono; [done| | |done].
  - by apply list_elem_of_lookup_2 in Hvi.
  - by apply list_elem_of_lookup_2 in Hvj.
Qed.





(** *** The reducers *)

Lemma Series_mean_cons (s : Series xfloat) x r :
  dropna s = x :: r →
  Series_mean s = f_div (foldl f_add f_zero (x :: r)) (f_of_nat (length (x :: r))).
Proof. unfold Series_mean. by intros ->. Qed.

Lemma inject_add a b :
  Q2Qc (inject_Z a) + Q2Qc (inject_Z b) = Q2Qc (inject_Z (a + b)).
Proof.
  apply Qc_is_canon. cbn [this Qcplus Q2Qc].
  rewrite !Qred_correct, inject_Z_plus. reflexivity.
Qed.

Lemma inject_mult a b :
  Q2Qc (inject_Z a) * Q2Qc (inject_Z b) = Q2Qc (inject_Z (a * b)).
Proof.
  apply Qc_is_canon. cbn [this Qcmult Q2Qc].
  rewrite !Qred_correct, inject_Z_mult. reflexivity.
Qed.

Lemma inject_le_inv a b : Q2Qc (inject_Z a) ≤ Q2Qc (inject_Z b) → (a ≤ b)%Z.
Proof.
  unfold Qcle. cbn [this Q2Qc]. rewrite !Qred_correct. by rewrite <- Zle_Qle.
Qed.

Lemma sum_abs_cons o os : sum_abs (o :: os) = (from_option Z.abs 0 o + sum_abs os)%Z.
Proof. reflexivity. Qed.

Lemma sum_abs_nonneg os : (0 ≤ sum_abs os)%Z.
Proof.
  induction os as [|[a|] os IH]; [done|..]; rewrite sum_abs_cons; cbn [from_option]; lia.
Qed.

Section integer_data.
Context (B : Z) (HB : exact_ints R B).

Lemma add_ints a b : (Z.abs (a + b) ≤ B)%Z → f_add (z a) (z b) = z (a + b).
Proof.
  intros Hab. cbn. unfold add. cbn. rewrite inject_add. by apply HB.
Qed.

Lemma foldl_add_ints a zs :
  (Z.abs a + sum_abs (Some <$> zs) ≤ B)%Z →
  foldl f_add (z a) (z <$> zs) = z (a + foldr Z.add 0 zs)%Z.
Proof.
  revert a. induction zs as [|b zs IH]; intros a Ha; cbn [fmap list_fmap foldl foldr].
  - by rewrite Z.add_0_r.
  - rewrite fmap_cons, sum_abs_cons in Ha. cbn [from_option] in Ha.
    pose proof (sum_abs_nonneg (Some <$> zs)) as Hs.
    rewrite add_ints by lia. rewrite IH by lia.
    by rewrite Z.add_assoc.
Qed.

Lemma f_of_nat_ints n : (Z.of_nat n ≤ B)%Z → f_of_nat n = z (Z.of_nat n).
Proof.
  unfold f_of_nat. induction n as [|n IH]; intros Hn; [done|].
  rewrite Nat.iter_succ, IH by lia.
  change (f_one) with (z 1). rewrite add_ints by lia.
  by replace (Z.of_nat (S n)) with (Z.of_nat n + 1)%Z by lia.
Qed.

Lemma foldr_add_lower a zs :
  (∀ b, b ∈ zs → a ≤ b)%Z → (a * Z.of_nat (length zs) ≤ foldr Z.add 0 zs)%Z.
Proof.
  induction zs as [|b zs IH]; intros Hb; cbn [length foldr]; [lia|].
  assert (a ≤ b)%Z by (apply Hb; left).
  assert (a * Z.of_nat (length zs) ≤ foldr Z.add 0 zs)%Z.
  { apply IH. intros c Hc. apply Hb. by right. }
  lia.
Qed.

Lemma foldr_add_upper a zs :
  (∀ b, b ∈ zs → b ≤ a)%Z → (foldr Z.add 0 zs ≤ a * Z.of_nat (length zs))%Z.
Proof.
  induction zs as [|b zs IH]; intros Hb; cbn [length foldr]; [lia|].
  assert (b ≤ a)%Z by (apply Hb; left).
  assert (foldr Z.add 0 zs ≤ a * Z.of_nat (length zs))%Z.
  { apply IH. intros c Hc. apply Hb. by right. }
  lia.
Qed.

Lemma sum_abs_elem zs a : a ∈ zs → (Z.abs a ≤ sum_abs (Some <$> zs))%Z.
Proof.
  induction zs as [|b zs IH]; intros Ha; [inv Ha|].
  pose proof (sum_abs_nonneg (Some <$> zs)) as Hs.
  rewrite fmap_cons, sum_abs_cons. cbn [from_option].
  apply elem_of_cons in Ha as [->|Ha]; [lia|].
  specialize (IH Ha). lia.
Qed.

Lemma sum_abs_sum zs : (Z.abs (foldr Z.add 0 zs) ≤ sum_abs (Some <$> zs))%Z.
Proof.
  induction zs as [|b zs IH]; [done|].
  rewrite fmap_cons, sum_abs_cons. cbn [from_option foldr]. lia.
Qed.

(** The mean of integers whose absolute values sum to at most [B]: the
    sum is exact, and the rounding of the quotient keeps it between any
    lower and upper bound of the integers. *)
Lemma Series_mean_ints zs lo hi :
  zs ≠ [] →
  (sum_abs (Some <$> zs) ≤ B)%Z → (Z.of_nat (length zs) ≤ B)%Z →
  (Z.abs lo ≤ B)%Z → (Z.abs hi ≤ B)%Z →
  (∀ b, b ∈ zs → lo ≤ b ≤ hi)%Z →
  leb (z lo) (Series_mean (z <$> zs)) = true
  ∧ leb (Series_mean (z <$> zs)) (z hi) = true.
Proof.
  intros Hne Hsum Hlen Hlo Hhi Hb.
  assert (Hmean : Series_mean (z <$> zs)
                  = f_div (z (foldr Z.add 0%Z zs)) (z (Z.of_nat (length zs)))).
  { assert (Hd : dropna (z <$> zs) = z <$> zs).
    { apply dropna_all, Forall_fmap, Forall_forall. done. }
    assert (Hcons : ∃ z0 zs', zs = z0 :: zs') by (destruct zs; [done|eauto]).
    destruct Hcons as (z0 & zs' & Hzs).
    rewrite (Series_mean_cons _ (z z0) (z <$> zs')) by (by rewrite Hd, Hzs).
    change (z z0 :: (z <$> zs')) with (z <$> (z0 :: zs')). rewrite <- Hzs.
    rewrite length_fmap, f_of_nat_ints by done.
    change f_zero with (z 0). rewrite foldl_add_ints by lia. by rewrite Z.add_0_l. }
  set (S := foldr Z.add 0%Z zs) in *. set (n := Z.of_nat (length zs)) in *.
  assert (Hn : (0 < n)%Z) by (unfold n; destruct zs; [done|cbn; lia]).
  assert (Hlower : (lo * n ≤ S)%Z) by (apply foldr_add_lower; intros b Hin; by apply Hb).
  assert (Hupper : (S ≤ hi * n)%Z) by (apply foldr_add_upper; intros b Hin; by apply Hb).
  assert (Hpos : 0 < Q2Qc (inject_Z n)).
  { unfold Qclt. cbn [this Q2Qc]. rewrite !Qred_correct.
    change 0%Q with (inject_Z 0). by rewrite <- Zlt_Qlt. }
  assert (Hn0 : Q2Qc (inject_Z n) ≠ 0).
  { intros H0. rewrite H0 in Hpos. by apply Qclt_not_eq in Hpos. }
  assert (Hmul : Q2Qc (inject_Z S) / Q2Qc (inject_Z n) * Q2Qc (inject_Z n)
                 = Q2Qc (inject_Z S)) by (field; done).
  assert (Hdiv : f_div (z S) (z n) = rnd (Q2Qc (inject_Z S) / Q2Qc (inject_Z n))).
  { cbn. unfold div. cbn. unfold zeroQ. by rewrite bool_decide_false by done. }
  rewrite Hmean, Hdiv.
  unfold z. rewrite <- (HB lo Hlo), <- (HB hi Hhi). split.
  - apply (rnd_mono R HR). apply (Qcmult_le_mono_pos_r _ _ _ Hpos).
    rewrite Hmul, inject_mult. by apply inject_le.
  - apply (rnd_mono R HR). apply (Qcmult_le_mono_pos_r _ _ _ Hpos).
    rewrite Hmul, inject_mult. by apply inject_le.
Qed.

Lemma dropna_cons (x : xfloat) (s : Series xfloat) :
  dropna (x :: s) = if isnan x then dropna s else x :: dropna s.
Proof. unfold dropna. cbn. unfold notna. cbn. by destruct (isnan x). Qed.

Lemma dropna_integers os :
  dropna ((λ o, from_option z NaN o) <$> os) = z <$> omap (@id (option Z)) os.
Proof.
  induction os as [|[a|] os IH]; [done|..];
    rewrite fmap_cons, dropna_cons; cbn [from_option isnan z]; rewrite IH; done.
Qed.

Lemma sum_abs_omap os : sum_abs (Some <$> omap (@id (option Z)) os) = sum_abs os.
Proof.
  induction os as [|[a|] os IH]; [done|..]; cbn [omap list_omap id fmap list_fmap];
    rewrite !sum_abs_cons, ?IH; cbn [from_option]; lia.
Qed.

Lemma length_omap_le os : (length (omap (@id (option Z)) os) ≤ length os)%nat.
Proof. induction os as [|[a|] os IH]; cbn; lia. Qed.

Lemma Series_mean_dropna (s : Series xfloat) : Series_mean (dropna s) = Series_mean s.
Proof. unfold Series_mean. by rewrite dropna_idemp. Qed.

Lemma Series_min_dropna (s : Series xfloat) : Series_min (dropna s) = Series_min s.
Proof. unfold Series_min. by rewrite dropna_idemp. Qed.

Lemma Series_max_dropna (s : Series xfloat) : Series_max (dropna s) = Series_max s.
Proof. unfold Series_max. by rewrite dropna_idemp. Qed.

(** Minimum and maximum of a column of integers are two of them, below
    and above the others. *)
Lemma Series_min_max_ints zs :
  zs ≠ [] →
  ∃ a b, a ∈ zs ∧ b ∈ zs
    ∧ Series_min (z <$> zs) = z a ∧ Series_max (z <$> zs) = z b
    ∧ ∀ c, c ∈ zs → (a ≤ c ≤ b)%Z.
Proof.
  intros Hne.
  assert (Hd : dropna (z <$> zs) = z <$> zs).
  { apply dropna_all, Forall_fmap, Forall_forall. done. }
  assert (Hdne : dropna (z <$> zs) ≠ []) by (rewrite Hd; by destruct zs).
  pose proof (Series_min_elem _ Hdne) as Hlo. rewrite Hd in Hlo.
  pose proof (Series_max_elem _ Hdne) as Hhi. rewrite Hd in Hhi.
  apply list_elem_of_fmap in Hlo as (a & Hlo & Ha).
  apply list_elem_of_fmap in Hhi as (b & Hhi & Hb).
  exists a, b. split_and!; [done..|].
  intros c Hc.
  assert (Hin : z c ∈ dropna (z <$> zs)).
  { rewrite Hd. by apply (list_elem_of_fmap_2 z). }
  pose proof (Series_min_lower _ _ Hin) as Hl.
  pose proof (Series_max_upper _ _ Hin) as Hu.
  change (Series_min (Dtype0 := xfloat_dtype) (z <$> zs)) with (Series_min (z <$> zs)) in Hl.
  change (Series_max (Dtype0 := xfloat_dtype) (z <$> zs)) with (Series_max (z <$> zs)) in Hu.
  rewrite Hlo in Hl. rewrite Hhi in Hu. cbn in Hl, Hu.
  apply bool_decide_eq_true in Hl, Hu. split; by apply inject_le_inv.
Qed.

(** The reducers on a column that holds integers, seen as floats. *)
Lemma integer_column (col : column xfloat) os :
  holds_integers col os → (sum_abs os ≤ B)%Z → (∃ a, Some a ∈ os) →
  let zs := omap (@id (option Z)) os in
  zs ≠ []
  ∧ to_float (column_min col) = Series_min (z <$> zs)
  ∧ to_float (column_max col) = Series_max (z <$> zs)
  ∧ column_mean col = Series_mean (z <$> zs).
Proof.
  intros Hcol Hsum (a0 & Ha0). cbn zeta.
  assert (Hne : omap (@id (option Z)) os ≠ []).
  { intros Hnil. assert (Hin : a0 ∈ omap (@id (option Z)) os) by (apply list_elem_of_omap; eauto).
    rewrite Hnil in Hin. inv Hin. }
  split; [done|]. destruct col as [l|s]; cbn [holds_integers] in Hcol.
  - subst os.
    assert (Hzs : omap (@id (option Z)) (Some <$> l) = l).
    { clear. induction l as [|a l IH]; [done|]. cbn. by rewrite IH. }
    rewrite Hzs in *.
    assert (Hval : of_int <$> l = z <$> l).
    { apply list_fmap_ext. intros i c Hc%list_elem_of_lookup_2.
      apply HB. etrans; [by apply sum_abs_elem|done]. }
    destruct (Series_min_max_ints l Hne) as (a & b & Ha & Hb & Hmin & Hmax & Hbd).
    destruct l as [|x r] eqn:Hl; [done|]. rewrite <- Hl in *.
    assert (Hm : foldl Z.min x r = a).
    { pose proof (foldl_Zmin_elem x r) as Hin. rewrite <- Hl in Hin.
      pose proof (foldl_Zmin_le x r a) as Hle. rewrite <- Hl in Hle.
      specialize (Hle Ha). specialize (Hbd _ Hin). lia. }
    assert (HM : foldl Z.max x r = b).
    { pose proof (foldl_Zmax_elem x r) as Hin. rewrite <- Hl in Hin.
      pose proof (foldl_Zmax_ge x r b) as Hle. rewrite <- Hl in Hle.
      specialize (Hle Hb). specialize (Hbd _ Hin). lia. }
    assert (Hcmin : column_min (IntCol l) = IntS a) by (rewrite Hl; cbn; by rewrite Hm).
    assert (Hcmax : column_max (IntCol l) = IntS b) by (rewrite Hl; cbn; by rewrite HM).
    rewrite Hcmin, Hcmax, Hmin, Hmax. unfold column_mean. cbn [values to_float].
    rewrite Hval. split_and!; [| |done].
    + apply HB. etrans; [by apply sum_abs_elem|done].
    + apply HB. etrans; [by apply sum_abs_elem|done].
  - subst s. cbn [column_min column_max to_float]. unfold column_mean. cbn [values].
    rewrite <- Series_min_dropna, <- Series_max_dropna, <- Series_mean_dropna.
    by rewrite dropna_integers.
Qed.

End integer_data.

(** The mean of one value is that value. *)
Lemma f_of_nat_one : f_of_nat 1 = Num 1.
Proof.
  unfold f_of_nat. cbn. unfold add. cbn.
  replace (zeroQ + oneQ) with 1 by (unfold zeroQ, oneQ; ring).
  apply (rnd_one R HR).
Qed.

Lemma Series_mean_one x : representable x → Series_mean [x] = x.
Proof.
  intros Hx. destruct x as [|b|q]; [done| |].
  - rewrite (Series_mean_cons _ (Inf b) []) by done.
    cbn [length foldl]. rewrite f_of_nat_one. cbn. unfold div. cbn.
    unfold negQ. rewrite bool_decide_false by done. by destruct b.
  - unfold representable in Hx. cbn in Hx.
    rewrite (Series_mean_cons _ (Num q) []) by done.
    cbn [length foldl]. rewrite f_of_nat_one. cbn. unfold add. cbn.
    replace (zeroQ + q) with q by (unfold zeroQ; ring). rewrite Hx.
    unfold div. cbn. unfold zeroQ.
    rewrite bool_decide_false by exact Q_apart_0_1.
    cbn. replace (q / 1) with q by (field; done). exact Hx.
Qed.

(** C5 (amended): on a column, int64 or float64, with at least one value
    that is not NaN, min_mag <= max_mag.  mean_mag lies between them when
    the values are integers whose absolute values sum to at most [B], the
    bound up to which the integers are numbers of the format, in a table of
    at most [B] rows: no addition rounds then.  On a table of one row
    min_mag and max_mag return the value of the row and mean_mag returns it
    as a float. *)
Theorem reducers_ordered (df : Table xfloat) (mag_col : string)
    (col : column xfloat) :
  df !! mag_col = Some col →
  ((∃ v, v ∈ entries col ∧ scalar_isnan v = false) →
   ∃ lo mx,
     Mixed.min_mag df mag_col = Ok lo ∧ Mixed.max_mag df mag_col = Ok mx
     ∧ scalar_leb lo mx = true)
  ∧ (∀ os B,
       exact_ints R B → holds_integers col os → (∃ a, Some a ∈ os) →
       (sum_abs os ≤ B)%Z → (Z.of_nat (length os) ≤ B)%Z →
       ∃ lo me mx,
         Mixed.min_mag df mag_col = Ok lo ∧ Mixed.mean_mag df mag_col = Ok me
         ∧ Mixed.max_mag df mag_col = Ok mx
         ∧ f_leb (to_float lo) me = true ∧ f_leb me (to_float mx) = true)
  ∧ (∀ v, entries col = [v] → Forall representable (values col) →
       Mixed.min_mag df mag_col = Ok v ∧ Mixed.max_mag df mag_col = Ok v
       ∧ Mixed.mean_mag df mag_col = Ok (to_float v)).
Proof.
  intros Hcol. unfold Mixed.min_mag, Mixed.max_mag, Mixed.mean_mag, Mixed.getitem.
  rewrite Hcol. cbn [res_bind]. split_and!.
  - intros (v & Hv & Hnan). exists (column_min col), (column_max col).
    split_and!; [done..|]. destruct col as [[|x r]|s]; [inv Hv| |].
    + cbn. apply bool_decide_eq_true.
      assert (Hx : x ∈ x :: r) by left.
      pose proof (foldl_Zmin_le x r x Hx). pose proof (foldl_Zmax_ge x r x Hx). lia.
    + cbn [entries] in Hv. apply list_elem_of_fmap in Hv as (y & -> & Hy).
      cbn in Hnan. cbn.
      assert (Hne : dropna s ≠ []).
      { intros Hnil. assert (Hin : y ∈ dropna s) by (by apply elem_of_dropna).
        change (@dropna xfloat xfloat_dtype s) with (dropna s) in Hin.
        rewrite Hnil in Hin. inv Hin. }
      apply (Series_min_lower s (Series_max s)). exact (Series_max_elem s Hne).
  - intros os B HB Hos Hsome Hsum Hlen.
    destruct (integer_column B HB col os Hos Hsum Hsome) as (Hne & Hmin & Hmax & Hmean).
    destruct (Series_min_max_ints _ Hne) as (a & b & Ha & Hb & Hlo & Hhi & Hbd).
    exists (column_min col), (column_mean col), (column_max col).
    split_and!; [done..| |]; rewrite ?Hmin, ?Hmax, Hmean, ?Hlo, ?Hhi.
    + apply (Series_mean_ints B HB _ a b); try done.
      * by rewrite sum_abs_omap.
      * pose proof (length_omap_le os). lia.
      * etrans; [by apply sum_abs_elem|]. by rewrite sum_abs_omap.
      * etrans; [by apply sum_abs_elem|]. by rewrite sum_abs_omap.
    + apply (Series_mean_ints B HB _ a b); try done.
      * by rewrite sum_abs_omap.
      * pose proof (length_omap_le os). lia.
      * etrans; [by apply sum_abs_elem|]. by rewrite sum_abs_omap.
      * etrans; [by apply sum_abs_elem|]. by rewrite sum_abs_omap.
  - intros v Hv Hrep. destruct col as [[|x [|? ?]]|[|x [|? ?]]]; try done.
    + injection Hv as <-. cbn. split_and!; [done..|]. f_equal.
      unfold column_mean. cbn [values fmap list_fmap].
      apply Series_mean_one, of_int_representable.
    + injection Hv as <-. apply Forall_inv in Hrep. cbn [values] in Hrep.
      unfold column_mean. cbn [values column_min column_max to_float].
      rewrite Series_mean_one by done.
      destruct x as [|b|q]; done.
Qed.

End rounding.

End RoundedFacts.

(** ** Two roundings *)

Module Formats.
Import Exact ExactDefs ExactFacts Rounded.
Local Open Scope Qc_scope.

Lemma Num_inj (p q : Qc) : Num p = Num q → p = q.
Proof. intros H. exact (f_equal (λ x, match x with Num r => r | _ => p end) H). Qed.

(** The rounding that never rounds: the exact instance. *)
Lemma exactly_lawful : lawful exactly.
Proof.
  split.
  - intros p q Hpq. change (leb (Num p) (Num q) = true). cbn.
    by apply bool_decide_eq_true.
  - reflexivity.
  - reflexivity.
  - intros p q. change (Num p = Num q → Num q = Num q). done.
  - intros p q _ _. change (Num (p - q) = Num 0 → p = q).
    intros H0%Num_inj. exact (proj1 (Qcminus_eq_0 p q) H0).
Qed.

Lemma exactly_holds_int64 : holds_int64 exactly.
Proof. intros z' _. by eexists. Qed.

Lemma exactly_exact_ints B : exact_ints exactly B.
Proof. by intros z' _. Qed.

End Formats.

(** ** binary64 rounding is lawful *)

Module Binary64Facts.
Import Exact ExactDefs ExactFacts Rounded Formats.
Local Open Scope Q_scope.

(** *** Rounding to the nearest integer *)

Lemma Qfloor_bounds (y : Q) : inject_Z (Qfloor y) <= y ∧ y < inject_Z (Qfloor y) + 1.
Proof.
  split; [apply Qfloor_le|]. pose proof (Qlt_floor y) as H.
  rewrite inject_Z_plus in H. exact H.
Qed.

Lemma rne_cases (y : Q) :
  (rne y = Qfloor y ∧ (y - inject_Z (Qfloor y)) * 2 < 1)
  ∨ (rne y = (Qfloor y + 1)%Z ∧ 1 < (y - inject_Z (Qfloor y)) * 2)
  ∨ ((y - inject_Z (Qfloor y)) * 2 == 1
     ∧ rne y = if Z.even (Qfloor y) then Qfloor y else (Qfloor y + 1)%Z).
Proof.
  unfold rne. cbn zeta.
  destruct (Qcompare_spec ((y - inject_Z (Qfloor y)) * 2) 1) as [H|H|H]; auto.
Qed.

Lemma rne_int (z : Z) : rne (inject_Z z) = z.
Proof.
  destruct (rne_cases (inject_Z z)) as [[H _]|[[_ H]|[H _]]]; rewrite Qfloor_Z in *;
    [done|lra|lra].
Qed.

Lemma rne_comp (y y' : Q) : y == y' → rne y = rne y'.
Proof.
  intros H. unfold rne. cbn zeta. rewrite <- (Qfloor_comp y y' H).
  assert (Hc : (y - inject_Z (Qfloor y)) * 2 == (y' - inject_Z (Qfloor y)) * 2).
  { apply Qmult_comp; [|reflexivity]. apply Qplus_comp; [exact H|reflexivity]. }
  by rewrite (Qcompare_comp _ _ Hc 1 1 (Qeq_refl 1)).
Qed.

Lemma rne_mono (y1 y2 : Q) : y1 <= y2 → (rne y1 <= rne y2)%Z.
Proof.
  intros Hle. pose proof (Qfloor_resp_le _ _ Hle) as Hf.
  pose proof (Qfloor_bounds y1) as [H1 H1']. pose proof (Qfloor_bounds y2) as [H2 H2'].
  destruct (Z.eq_dec (Qfloor y1) (Qfloor y2)) as [Heq|Hne].
  - destruct (rne_cases y1) as [[-> Ha]|[[-> Ha]|[Ha ->]]];
      destruct (rne_cases y2) as [[-> Hb]|[[-> Hb]|[Hb ->]]];
      rewrite <- ?Heq in *; try lia; try lra;
      destruct (Z.even (Qfloor y1)); lia || lra.
  - assert (Hlt : (Qfloor y1 + 1 <= Qfloor y2)%Z) by lia.
    assert (Hu : (rne y1 <= Qfloor y1 + 1)%Z).
    { destruct (rne_cases y1) as [[-> _]|[[-> _]|[_ ->]]]; try lia.
      destruct (Z.even _); lia. }
    assert (Hl : (Qfloor y2 <= rne y2)%Z).
    { destruct (rne_cases y2) as [[-> _]|[[-> _]|[_ ->]]]; try lia.
      destruct (Z.even _); lia. }
    lia.
Qed.

(** *** Rounding at a given spacing *)

Lemma pow2_pos (k : Z) : (0 ≤ k)%Z → 0 < inject_Z (2 ^ k).
Proof.
  intros Hk. change 0 with (inject_Z 0%Z). rewrite <- Zlt_Qlt.
  by apply Z.pow_pos_nonneg.
Qed.

Lemma scale_mono (k : Z) (x1 x2 : Q) :
  (0 ≤ k)%Z → x1 <= x2 →
  (rne (x1 / inject_Z (2 ^ k)) * 2 ^ k ≤ rne (x2 / inject_Z (2 ^ k)) * 2 ^ k)%Z.
Proof.
  intros Hk Hle. pose proof (pow2_pos k Hk) as Hp.
  apply Z.mul_le_mono_nonneg_r; [by apply Z.pow_nonneg|].
  apply rne_mono. unfold Qdiv. apply Qmult_le_compat_r; [done|].
  by apply Qinv_le_0_compat, Qlt_le_weak.
Qed.

Lemma scale_fixed (k t : Z) :
  (0 ≤ k)%Z → rne (inject_Z (t * 2 ^ k) / inject_Z (2 ^ k)) = t.
Proof.
  intros Hk. pose proof (pow2_pos k Hk) as Hp.
  rewrite (rne_comp _ (inject_Z t)); [apply rne_int|].
  rewrite inject_Z_mult. field. intros H0. rewrite H0 in Hp. lra.
Qed.

Lemma scale_ge (k t : Z) (x : Q) :
  (0 ≤ k)%Z → inject_Z (t * 2 ^ k) <= x →
  (t * 2 ^ k ≤ rne (x / inject_Z (2 ^ k)) * 2 ^ k)%Z.
Proof.
  intros Hk Hx. pose proof (scale_mono k _ _ Hk Hx) as H.
  by rewrite scale_fixed in H.
Qed.

Lemma scale_le (k t : Z) (x : Q) :
  (0 ≤ k)%Z → x <= inject_Z (t * 2 ^ k) →
  (rne (x / inject_Z (2 ^ k)) * 2 ^ k ≤ t * 2 ^ k)%Z.
Proof.
  intros Hk Hx. pose proof (scale_mono k _ _ Hk Hx) as H.
  by rewrite scale_fixed in H.
Qed.

(** *** The spacing of the format *)

Lemma ulp_exp_nonneg (x : Q) : (0 ≤ ulp_exp x)%Z.
Proof. unfold ulp_exp. lia. Qed.

Lemma ulp_exp_mono (x1 x2 : Q) : x1 <= x2 → (ulp_exp x1 ≤ ulp_exp x2)%Z.
Proof.
  intros Hle. unfold ulp_exp.
  pose proof (Z.log2_le_mono _ _ (Qfloor_resp_le _ _ Hle)). lia.
Qed.

Lemma ulp_exp_upper (x : Q) : 0 <= x → x < inject_Z (2 ^ (ulp_exp x + 53)).
Proof.
  intros Hx. pose proof (Qfloor_bounds x) as [_ Hlt].
  assert (Hf : (0 ≤ Qfloor x)%Z).
  { change 0%Z with (Qfloor 0%Q). by apply Qfloor_resp_le. }
  assert (Hb : (Qfloor x + 1 ≤ 2 ^ (ulp_exp x + 53))%Z).
  { unfold ulp_exp. destruct (Z.eq_dec (Qfloor x) 0%Z) as [->|Hne].
    - cbn. lia.
    - pose proof (Z.log2_spec (Qfloor x) ltac:(lia)) as [_ Hs].
      assert (2 ^ Z.succ (Z.log2 (Qfloor x))
              ≤ 2 ^ (Z.max (Z.log2 (Qfloor x) - 52) 0 + 53))%Z.
      { apply Z.pow_le_mono_r; lia. }
      lia. }
  rewrite Zle_Qle, inject_Z_plus in Hb. change (inject_Z 1) with 1 in Hb. lra.
Qed.

Lemma ulp_exp_lower (x : Q) :
  (0 < ulp_exp x)%Z → inject_Z (2 ^ (ulp_exp x + 52)) <= x.
Proof.
  intros Hk. pose proof (Qfloor_bounds x) as [Hle _].
  unfold ulp_exp in *.
  assert (Hl : (53 ≤ Z.log2 (Qfloor x))%Z) by lia.
  assert (Hf : (0 < Qfloor x)%Z).
  { destruct (Z.lt_ge_cases 0%Z (Qfloor x)) as [?|Hn]; [done|].
    rewrite (Z.log2_nonpos _ Hn) in Hl. lia. }
  pose proof (Z.log2_spec (Qfloor x) Hf) as [Hs _].
  replace (Z.max (Z.log2 (Qfloor x) - 52) 0 + 52)%Z with (Z.log2 (Qfloor x)) by lia.
  rewrite Zle_Qle in Hs. lra.
Qed.

(** *** Rounding a number of units *)

Lemma round_units_mono (x1 x2 : Q) :
  0 <= x1 → x1 <= x2 → (round_units x1 ≤ round_units x2)%Z.
Proof.
  intros H0 Hle. unfold round_units.
  pose proof (ulp_exp_nonneg x1) as Hk1. pose proof (ulp_exp_nonneg x2) as Hk2.
  pose proof (ulp_exp_mono _ _ Hle) as Hk.
  destruct (Z.eq_dec (ulp_exp x1) (ulp_exp x2)) as [Heq|Hne].
  - rewrite Heq. by apply scale_mono.
  - assert (Hlt : (ulp_exp x1 + 1 ≤ ulp_exp x2)%Z) by lia.
    set (T := (2 ^ (ulp_exp x2 + 52))%Z).
    assert (HT1 : T = (2 ^ (ulp_exp x2 + 52 - ulp_exp x1) * 2 ^ ulp_exp x1)%Z).
    { unfold T. rewrite <- Z.pow_add_r by lia. f_equal. lia. }
    assert (HT2 : T = (2 ^ 52 * 2 ^ ulp_exp x2)%Z).
    { unfold T. rewrite <- Z.pow_add_r by lia. f_equal. lia. }
    assert (Hx1 : x1 <= inject_Z T).
    { pose proof (ulp_exp_upper x1 H0) as Hu.
      assert (2 ^ (ulp_exp x1 + 53) ≤ T)%Z by (apply Z.pow_le_mono_r; lia).
      rewrite Zle_Qle in H. lra. }
    assert (Hx2 : inject_Z T <= x2) by (apply ulp_exp_lower; lia).
    etrans; [apply (scale_le _ (2 ^ (ulp_exp x2 + 52 - ulp_exp x1))); [done|by rewrite <- HT1]|].
    rewrite <- HT1, HT2. apply scale_ge; [done|by rewrite <- HT2].
Qed.

Lemma round_units_format (x : Q) :
  0 <= x → ∃ n, (0 ≤ n ≤ 2 ^ 53)%Z ∧ round_units x = (n * 2 ^ ulp_exp x)%Z.
Proof.
  intros Hx. pose proof (ulp_exp_nonneg x) as Hk. pose proof (pow2_pos _ Hk) as Hp.
  exists (rne (x / inject_Z (2 ^ ulp_exp x))). split; [|done]. split.
  - rewrite <- (rne_int 0%Z). apply rne_mono. change (inject_Z 0%Z) with 0.
    unfold Qdiv. apply Qmult_le_0_compat; [done|]. by apply Qinv_le_0_compat, Qlt_le_weak.
  - rewrite <- (scale_fixed (ulp_exp x) (2 ^ 53)%Z Hk). apply rne_mono.
    unfold Qdiv. apply Qmult_le_compat_r; [|by apply Qinv_le_0_compat, Qlt_le_weak].
    pose proof (ulp_exp_upper x Hx) as Hu.
    rewrite <- Z.pow_add_r by lia. rewrite Z.add_comm. lra.
Qed.

Lemma round_units_fixed (n k : Z) :
  (0 ≤ n ≤ 2 ^ 53)%Z → (0 ≤ k)%Z →
  round_units (inject_Z (n * 2 ^ k)) = (n * 2 ^ k)%Z.
Proof.
  intros Hn Hk. unfold round_units.
  set (k' := ulp_exp (inject_Z (n * 2 ^ k))).
  assert (Hk' : (0 ≤ k')%Z) by apply ulp_exp_nonneg.
  assert (Hdiv : ∃ t, (n * 2 ^ k = t * 2 ^ k')%Z).
  { destruct (Z.eq_dec n 0%Z) as [->|Hn0]; [exists 0%Z; lia|].
    assert (Hlog : Z.log2 (n * 2 ^ k) = (k + Z.log2 n)%Z) by (apply Z.log2_mul_pow2; lia).
    unfold k', ulp_exp. rewrite Qfloor_Z, Hlog.
    destruct (Z.le_gt_cases (Z.log2 n) 52%Z) as [Hs|Hb].
    - exists (n * 2 ^ (k - Z.max (k + Z.log2 n - 52) 0))%Z.
      rewrite <- Z.mul_assoc, <- Z.pow_add_r by lia. do 2 f_equal. lia.
    - assert (Hn53 : n = (2 ^ 53)%Z).
      { pose proof (Z.log2_spec n ltac:(lia)) as [Hs _].
        assert (2 ^ 53 ≤ 2 ^ Z.log2 n)%Z by (apply Z.pow_le_mono_r; lia). lia. }
      subst n. exists (2 ^ 52)%Z. rewrite Z.log2_pow2 by lia.
      rewrite <- !Z.pow_add_r by lia. f_equal. lia. }
  destruct Hdiv as [t Ht]. rewrite Ht. by rewrite scale_fixed.
Qed.

Lemma round_units_idem (x : Q) :
  0 <= x → round_units (inject_Z (round_units x)) = round_units x.
Proof.
  intros Hx. destruct (round_units_format x Hx) as (n & Hn & ->).
  apply round_units_fixed; [done|apply ulp_exp_nonneg].
Qed.

Lemma round_units_comp (x x' : Q) : x == x' → round_units x = round_units x'.
Proof.
  intros H. unfold round_units, ulp_exp. rewrite <- (Qfloor_comp x x' H).
  f_equal. apply rne_comp. unfold Qdiv. apply Qmult_comp; [exact H|reflexivity].
Qed.

Lemma round_units_nonneg (x : Q) : 0 <= x → (0 ≤ round_units x)%Z.
Proof.
  intros Hx. destruct (round_units_format x Hx) as (n & Hn & ->).
  pose proof (Z.pow_nonneg 2 (ulp_exp x)). lia.
Qed.

(** *** The rounding [binary64] *)

Lemma units_pos : 0 < units.
Proof. reflexivity. Qed.

Lemma negQ_true (q : Qc) : negQ q = true → q < 0.
Proof. unfold negQ. by intros H%bool_decide_eq_true. Qed.

Lemma negQ_false (q : Qc) : negQ q = false → 0 <= q.
Proof.
  unfold negQ. intros H%bool_decide_eq_false. by apply Qcnot_lt_le in H.
Qed.

Lemma magnitude_nonneg (q : Qc) : (0 ≤ magnitude q)%Z.
Proof.
  apply round_units_nonneg. apply Qmult_le_0_compat; [apply Qabs_nonneg|].
  apply Qlt_le_weak, units_pos.
Qed.

Lemma binary64_cases (q : Qc) :
  ((2 ^ 2098 ≤ magnitude q)%Z ∧ binary64 q = Inf (negQ q))
  ∨ ((magnitude q < 2 ^ 2098)%Z
     ∧ binary64 q = Num (Q2Qc (signed (negQ q) (magnitude q)))).
Proof.
  unfold binary64. case_bool_decide as H; [by left|right]. split; [lia|done].
Qed.

Lemma signed_units (neg : bool) (r : Z) :
  signed neg r * units == if neg then - inject_Z r else inject_Z r.
Proof.
  unfold signed. pose proof units_pos as Hu. field. intros H0. rewrite H0 in Hu. lra.
Qed.

Lemma signed_sign (neg : bool) (r : Z) :
  (0 ≤ r)%Z → if neg then signed neg r <= 0 else 0 <= signed neg r.
Proof.
  intros Hr. rewrite Zle_Qle in Hr. change (inject_Z 0) with 0 in Hr.
  pose proof units_pos as Hu. pose proof (Qinv_lt_0_compat _ Hu) as Hi.
  assert (Hm : 0 <= inject_Z r * / units) by (apply Qmult_le_0_compat; lra).
  unfold signed, Qdiv. destruct neg; lra.
Qed.

Lemma abs_signed (neg : bool) (r : Z) :
  (0 ≤ r)%Z → Qabs (signed neg r) * units == inject_Z r.
Proof.
  intros Hr. pose proof (signed_sign neg r Hr) as Hs.
  pose proof (signed_units neg r) as Hu. destruct neg.
  - rewrite Qabs_neg by done. lra.
  - rewrite Qabs_pos by done. lra.
Qed.

Lemma magnitude_mono (p q : Qc) :
  Qabs p <= Qabs q → (magnitude p ≤ magnitude q)%Z.
Proof.
  intros Hle. pose proof units_pos as Hu. apply round_units_mono.
  - apply Qmult_le_0_compat; [apply Qabs_nonneg|lra].
  - apply Qmult_le_compat_r; lra.
Qed.

Lemma signed_mono (neg : bool) (r1 r2 : Z) :
  (r1 ≤ r2)%Z →
  if neg then signed neg r2 <= signed neg r1 else signed neg r1 <= signed neg r2.
Proof.
  intros Hr. rewrite Zle_Qle in Hr.
  pose proof units_pos as Hu. pose proof (Qinv_lt_0_compat _ Hu) as Hi.
  unfold signed, Qdiv. destruct neg; apply Qmult_le_compat_r; lra.
Qed.

Lemma Q2Qc_le (a b : Q) : a <= b → (Q2Qc a ≤ Q2Qc b)%Qc.
Proof. intros Hab. unfold Qcle. cbn [this Q2Qc]. by rewrite !Qred_correct. Qed.

Lemma binary64_mono (p q : Qc) : (p ≤ q)%Qc → leb (binary64 p) (binary64 q) = true.
Proof.
  intros Hpq. unfold Qcle in Hpq.
  pose proof (magnitude_nonneg p) as Hrp. pose proof (magnitude_nonneg q) as Hrq.
  destruct (negQ p) eqn:Hsp, (negQ q) eqn:Hsq.
  - apply negQ_true in Hsp as Hp. apply negQ_true in Hsq as Hq.
    assert (Hm : (magnitude q ≤ magnitude p)%Z).
    { apply magnitude_mono. rewrite !Qabs_neg by lra. lra. }
    destruct (binary64_cases p) as [[Hop ->]|[Hop ->]];
      destruct (binary64_cases q) as [[Hoq ->]|[Hoq ->]];
      rewrite ?Hsp, ?Hsq; try done; [lia|].
    cbn. apply bool_decide_eq_true, Q2Qc_le. by apply (signed_mono true).
  - apply negQ_true in Hsp as Hp. apply negQ_false in Hsq as Hq.
    destruct (binary64_cases p) as [[Hop ->]|[Hop ->]];
      destruct (binary64_cases q) as [[Hoq ->]|[Hoq ->]];
      rewrite ?Hsp, ?Hsq; try done.
    cbn. apply bool_decide_eq_true, Q2Qc_le.
    pose proof (signed_sign true _ Hrp). pose proof (signed_sign false _ Hrq).
    cbn in *. lra.
  - apply negQ_false in Hsp as Hp. apply negQ_true in Hsq as Hq. lra.
  - apply negQ_false in Hsp as Hp. apply negQ_false in Hsq as Hq.
    assert (Hm : (magnitude p ≤ magnitude q)%Z).
    { apply magnitude_mono. rewrite !Qabs_pos by lra. lra. }
    destruct (binary64_cases p) as [[Hop ->]|[Hop ->]];
      destruct (binary64_cases q) as [[Hoq ->]|[Hoq ->]];
      rewrite ?Hsp, ?Hsq; try done; [lia|].
    cbn. apply bool_decide_eq_true, Q2Qc_le. by apply (signed_mono false).
Qed.

Lemma Qabs_inject (z : Z) : Qabs (inject_Z z) = inject_Z (Z.abs z).
Proof. reflexivity. Qed.

Lemma magnitude_comp (q : Qc) (r : Z) :
  Qabs q * units == inject_Z r → magnitude q = round_units (inject_Z r).
Proof. intros H. unfold magnitude. by apply round_units_comp. Qed.

Lemma signed_zero (neg : bool) : signed neg 0 == 0.
Proof. unfold signed. destruct neg; reflexivity. Qed.

(** A number that [binary64] returns, rounded again. *)
Lemma binary64_signed (neg : bool) (n k : Z) :
  (0 ≤ n ≤ 2 ^ 53)%Z → (0 ≤ k)%Z → (n * 2 ^ k < 2 ^ 2098)%Z →
  binary64 (Q2Qc (signed neg (n * 2 ^ k))) = Num (Q2Qc (signed neg (n * 2 ^ k))).
Proof.
  intros Hn Hk Hlt. set (r := (n * 2 ^ k)%Z) in *.
  assert (Hr : (0 ≤ r)%Z) by (unfold r; pose proof (Z.pow_nonneg 2 k); lia).
  assert (Hm : magnitude (Q2Qc (signed neg r)) = r).
  { rewrite (magnitude_comp _ r).
    - by apply round_units_fixed.
    - cbn [this Q2Qc]. rewrite Qred_correct. by apply abs_signed. }
  destruct (binary64_cases (Q2Qc (signed neg r))) as [[Ho _]|[_ ->]]; [lia|].
  rewrite Hm. f_equal. apply Qc_is_canon. cbn [this Q2Qc]. rewrite !Qred_correct.
  destruct (Z.eq_dec r 0%Z) as [->|Hr0]; [by rewrite !signed_zero|].
  assert (Hpos : 0 < inject_Z r).
  { change 0 with (inject_Z 0%Z). rewrite <- Zlt_Qlt. lia. }
  pose proof units_pos as Hu. pose proof (Qinv_lt_0_compat _ Hu) as Hi.
  assert (Hq : 0 < inject_Z r * / units) by (apply Qmult_lt_0_compat; lra).
  destruct (negQ (Q2Qc (signed neg r))) eqn:Hs.
  - apply negQ_true in Hs. cbn [this Q2Qc] in Hs. rewrite Qred_correct in Hs.
    destruct neg; [reflexivity|]. unfold signed, Qdiv in Hs. lra.
  - apply negQ_false in Hs. cbn [this Q2Qc] in Hs. rewrite Qred_correct in Hs.
    destruct neg; [|reflexivity]. unfold signed, Qdiv in Hs. lra.
Qed.

Lemma binary64_idem (p q : Qc) : binary64 p = Num q → binary64 q = Num q.
Proof.
  destruct (binary64_cases p) as [[_ ->]|[Hlt ->]]; [done|].
  intros <-%Num_inj.
  assert (Hx : 0 <= Qabs p * units).
  { apply Qmult_le_0_compat; [apply Qabs_nonneg|apply Qlt_le_weak, units_pos]. }
  unfold magnitude in *. destruct (round_units_format _ Hx) as (n & Hn & Hr).
  rewrite Hr in *. apply binary64_signed; [done|apply ulp_exp_nonneg|done].
Qed.

Lemma binary64_int (z : Z) :
  (Z.abs z ≤ 2 ^ 53)%Z →
  binary64 (Q2Qc (inject_Z z)) = Num (Q2Qc (inject_Z z)).
Proof.
  intros Hz.
  assert (Heq : Q2Qc (inject_Z z) = Q2Qc (signed (z <? 0)%Z (Z.abs z * 2 ^ 1074)%Z)).
  { apply Qc_is_canon. cbn [this Q2Qc]. rewrite !Qred_correct.
    unfold signed. rewrite inject_Z_mult. fold units. pose proof units_pos as Hu.
    destruct (Z.ltb_spec z 0%Z) as [Hn|Hn].
    - rewrite Z.abs_neq by lia. rewrite inject_Z_opp. field. lra.
    - rewrite Z.abs_eq by lia. field. lra. }
  rewrite Heq. apply binary64_signed; [lia|lia|].
  assert (2 ^ 53 * 2 ^ 1074 < 2 ^ 2098)%Z by reflexivity.
  assert (Z.abs z * 2 ^ 1074 ≤ 2 ^ 53 * 2 ^ 1074)%Z by (apply Z.mul_le_mono_nonneg_r; lia).
  lia.
Qed.

Lemma binary64_zero : binary64 0%Qc = Num 0%Qc.
Proof. apply (binary64_int 0%Z). done. Qed.

Lemma binary64_one : binary64 1%Qc = Num 1%Qc.
Proof. apply (binary64_int 1%Z). done. Qed.

(** A number of the format is a whole number of units. *)
Lemma binary64_fixed_units (q : Qc) :
  binary64 q = Num q → ∃ z, q * units == inject_Z z.
Proof.
  destruct (binary64_cases q) as [[_ ->]|[_ ->]]; [done|].
  intros H%Num_inj. apply (f_equal this) in H. cbn [this Q2Qc] in H.
  pose proof (Qred_correct (signed (negQ q) (magnitude q))) as Hc. rewrite H in Hc.
  exists (if negQ q then - magnitude q else magnitude q)%Z.
  rewrite Hc, signed_units. destruct (negQ q); [by rewrite inject_Z_opp|done].
Qed.

Lemma binary64_sub_apart (p q : Qc) :
  binary64 p = Num p → binary64 q = Num q →
  binary64 (p - q)%Qc = Num 0%Qc → p = q.
Proof.
  intros (zp & Hp)%binary64_fixed_units (zq & Hq)%binary64_fixed_units.
  destruct (binary64_cases (p - q)%Qc) as [[_ ->]|[_ ->]]; [done|].
  intros H0%Num_inj. apply (f_equal this) in H0. cbn [this Q2Qc] in H0.
  apply Qred_eq_iff in H0.
  pose proof units_pos as Hu.
  assert (Hd : (p - q)%Qc * units == inject_Z (zp - zq)%Z).
  { cbn [this Qcminus Qcplus Qcopp Q2Qc]. rewrite !Qred_correct.
    unfold Z.sub. rewrite inject_Z_plus, inject_Z_opp, <- Hp, <- Hq. ring. }
  assert (Hm : magnitude (p - q)%Qc = 0%Z).
  { pose proof (signed_units (negQ (p - q)%Qc) (magnitude (p - q)%Qc)) as Hs.
    rewrite H0 in Hs. apply inject_Z_injective. change (inject_Z 0%Z) with 0.
    destruct (negQ (p - q)%Qc); lra. }
  assert (Hz : (zp - zq = 0)%Z).
  { destruct (Z.eq_dec (zp - zq)%Z 0%Z) as [?|Hne]; [done|]. exfalso.
    assert (Habs : Qabs (p - q)%Qc * units == inject_Z (Z.abs (zp - zq)%Z)).
    { rewrite <- Qabs_inject, <- Hd, Qabs_Qmult, (Qabs_pos units) by lra. reflexivity. }
    rewrite (magnitude_comp _ _ Habs) in Hm.
    assert (H1 : (round_units (inject_Z 1%Z) ≤ round_units (inject_Z (Z.abs (zp - zq)%Z)))%Z).
    { apply round_units_mono; [done|]. rewrite <- Zle_Qle. lia. }
    change (inject_Z 1%Z) with (inject_Z (1 * 2 ^ 0)%Z) in H1.
    rewrite (round_units_fixed 1%Z 0%Z) in H1 by lia. lia. }
  apply Qc_is_canon.
  assert (p * units == q * units) by (rewrite Hp, Hq; apply inject_Z_injective; lia).
  apply (Qmult_inj_r _ _ units); [lra|done].
Qed.

Lemma binary64_lawful : lawful binary64.
Proof.
  split.
  - apply binary64_mono.
  - apply binary64_zero.
  - apply binary64_one.
  - apply binary64_idem.
  - apply binary64_sub_apart.
Qed.

Lemma binary64_exact_ints : exact_ints binary64 (2 ^ 53).
Proof. intros z Hz. by apply binary64_int. Qed.

Lemma binary64_holds_int64 : holds_int64 binary64.
Proof.
  intros z Hz. change (∃ q, binary64 (Q2Qc (inject_Z z)) = Num q).
  destruct (binary64_cases (Q2Qc (inject_Z z))) as [[Ho _]|[_ ->]]; [|by eexists].
  exfalso. pose proof units_pos as Hu.
  assert (Hm : (magnitude (Q2Qc (inject_Z z)) ≤ round_units (inject_Z (2 ^ 53 * 2 ^ 1084)%Z))%Z).
  { apply round_units_mono.
    - apply Qmult_le_0_compat; [apply Qabs_nonneg|lra].
    - cbn [this Q2Qc]. rewrite Qred_correct, Qabs_inject.
      unfold units. rewrite <- inject_Z_mult, <- Zle_Qle.
      replace (2 ^ 53 * 2 ^ 1084)%Z with (2 ^ 63 * 2 ^ 1074)%Z by reflexivity.
      apply Z.mul_le_mono_nonneg_r; lia. }
  rewrite round_units_fixed in Hm by lia.
  assert (2 ^ 53 * 2 ^ 1084 < 2 ^ 2098)%Z by reflexivity. lia.
Qed.

End Binary64Facts.

(** ** The fixtures in binary64 *)

Module Tests64.
Import EdgeFixtures Mixed.

Example test_normalize_lc_int64 :
  Mixed.normalize_lc int_input64_df "b"
  = Ok [1; 0x1.2492492492492p-2; 0; 0x1.2492492492492p-2]%float.
Proof. vm_compute. reflexivity. Qed.

Example test_reducers_int64 :
  Mixed.max_mag int_input64_df "b" = Ok (IntS 9)
  ∧ Mixed.mean_mag int_input64_df "b" = Ok 0x1.3p+2%float
  ∧ Mixed.min_mag int_input64_df "b" = Ok (IntS 2).
Proof. split_and!; vm_compute; reflexivity. Qed.

Example test_int_to_float :
  int_to_float (2 ^ 53 + 1) = 0x1p+53%float
  ∧ int_to_float (- 2 ^ 63) = (- 0x1p+63)%float
  ∧ int_to_float (2 ^ 63 - 1) = 0x1p+63%float.
Proof. split_and!; vm_compute; reflexivity. Qed.

End Tests64.

(** ** Hardware binary64 and [Rounded.binary64] side by side *)

Section agreement.
Import Exact Fixtures EdgeFixtures Rounded.
#[local] Existing Instance binary64.
#[local] Existing Instance dtype | 0.
#[local] Existing Instance int_rounded.

(** Sums, a quotient, a tie in the subnormal range, and the overflow
    threshold. *)
Example arithmetic_agrees :
  of_float (0x1.999999999999ap-4 + 0x1.999999999999ap-3)
  = f_add (of_float 0x1.999999999999ap-4) (of_float 0x1.999999999999ap-3)
  ∧ of_float (1 / 3) = f_div (of_float 1) (of_float 3)
  ∧ of_float (0x1p-1074 / 2) = f_div (of_float 0x1p-1074) (of_float 2)
  ∧ of_float (0x3p-1074 / 2) = f_div (of_float 0x3p-1074) (of_float 2)
  ∧ of_float (0x1.fffffffffffffp+1023 + 0x1p+970)
    = f_add (of_float 0x1.fffffffffffffp+1023) (of_float 0x1p+970)
  ∧ of_float (0x1.fffffffffffffp+1023 + 0x1p+969)
    = f_add (of_float 0x1.fffffffffffffp+1023) (of_float 0x1p+969)
  ∧ of_float (0x1p+53 + 1) = f_add (of_float 0x1p+53) (of_float 1)
  ∧ of_float (0x1p+1023 - - 0x1p+1023)
    = f_sub (of_float 0x1p+1023) (of_float (- 0x1p+1023)).
Proof. split_and!; run. Qed.

(** The mean of three times 0.1 exceeds 0.1 in both. *)
Example mean_tenths_agrees :
  mean_mag tenths_rounded_df "b" = Ok (of_float 0x1.999999999999bp-4)
  ∧ max_mag tenths_rounded_df "b" = Ok (of_float 0x1.999999999999ap-4).
Proof. split; run. Qed.

(** The column that overflows normalises to zeros in both. *)
Example normalize_lc_overflow_agrees :
  normalize_lc overflow_rounded_df "b" = Ok [z 0; z 0].
Proof. run. Qed.

(** The int64 table of [test_normalize_lc]. *)
Example normalize_lc_int64_agrees :
  Mixed.normalize_lc int_input_df "b"
  = Ok (of_float <$> [1; 0x1.2492492492492p-2; 0; 0x1.2492492492492p-2]%float).
Proof. run. Qed.

End agreement.

(** ** Concrete instances in rounded arithmetic *)

Ltac by_cases H := repeat (apply elem_of_cons in H as [->|H]); [..|inv H].

Section rounded_instances.
Import Exact ExactDefs OrderDefs Mixed Rounded MixedDefs EdgeFixtures Formats Binary64Facts.
#[local] Existing Instance binary64.
#[local] Existing Instance dtype | 0.
#[local] Existing Instance int_rounded.

Local Abbreviation int_b := (IntCol (F := xfloat) [9; 4; 2; 4]%Z).
Local Abbreviation float_b := (FloatCol [z 1; two_sevenths; z 0; two_sevenths]).
Local Abbreviation missing_b := [z 12; NaN; z 15; z 11].

(** The int64 table of [test_normalize_lc]: 2/7 is rounded. *)
Example test_normalize_lc_rounded :
  Mixed.normalize_lc int_input_df "b" = Ok [z 1; two_sevenths; z 0; two_sevenths].
Proof. run. Qed.


(** The order of the rows with 4 and 9 is the order of their outputs. *)
Lemma normalize_lc_monotone_witness :
  f_leb (two_sevenths) (z 1) = true.
Proof.
  apply (RoundedFacts.normalize_lc_monotone binary64 binary64_lawful int_input_df "b"
           int_b [z 1; two_sevenths; z 0; two_sevenths] 1 0
           (IntS 4) (IntS 9)).
  - reflexivity.
  - intros a b Ha Hb. by_cases Ha; by_cases Hb; reflexivity.
  - run.
  - reflexivity.
  - reflexivity.
  - reflexivity.
  - reflexivity.
  - reflexivity.
Defined.




(** The int64 column 5, 8, 4; the integers 12, 15, 11 with a missing
    observation; and a table of one row. *)
Lemma reducers_ordered_witness :
  (∃ lo mx,
     Mixed.min_mag int_test_df "b" = Ok lo ∧ Mixed.max_mag int_test_df "b" = Ok mx
     ∧ scalar_leb lo mx = true)
  ∧ (∃ lo me mx,
       Mixed.min_mag missing_df "b" = Ok lo ∧ Mixed.mean_mag missing_df "b" = Ok me
       ∧ Mixed.max_mag missing_df "b" = Ok mx
       ∧ f_leb (to_float lo) me = true ∧ f_leb me (to_float mx) = true)
  ∧ (Mixed.min_mag one_int_df "b" = Ok (IntS 5)
     ∧ Mixed.max_mag one_int_df "b" = Ok (IntS 5)
     ∧ Mixed.mean_mag one_int_df "b" = Ok (to_float (IntS 5))).
Proof.
  split; [|split].
  - apply (RoundedFacts.reducers_ordered binary64 binary64_lawful int_test_df "b"
             (IntCol [5; 8; 4]%Z) eq_refl).
    exists (IntS 5). split; [left|reflexivity].
  - apply (RoundedFacts.reducers_ordered binary64 binary64_lawful missing_df "b"
             (FloatCol missing_b) eq_refl)
      with (os := [Some 12; None; Some 15; Some 11]%Z) (B := (2 ^ 53)%Z).
    + apply binary64_exact_ints.
    + reflexivity.
    + exists 12%Z. left.
    + vm_compute. discriminate.
    + vm_compute. discriminate.
  - apply (RoundedFacts.reducers_ordered binary64 binary64_lawful one_int_df "b"
             (IntCol [5]%Z) eq_refl).
    + reflexivity.
    + repeat constructor.
Defined.

End rounded_instances.

(** ** Where the claims as stated fail *)

Section counterexamples.
Import Exact Fixtures EdgeFixtures.


(** C5, as stated, fails.  On a table without rows the three reducers return
    NaN, and NaN <= NaN is false.  On three binary64 observations of 0.1 the
    rounded mean 0.10000000000000002 exceeds the maximum 0.1.  The mean of
    +inf and -inf is NaN.  On the one-row int64 table with 2^53 + 1 the
    mean is 2^53. *)
Lemma reducers_not_ordered :
  (min_mag empty_df "b" = Ok NaN ∧ mean_mag empty_df "b" = Ok NaN
   ∧ f_leb NaN NaN = false)
  ∧ (mean_mag tenths_df "b" = Ok 0x1.999999999999bp-4%float
     ∧ max_mag tenths_df "b" = Ok 0x1.999999999999ap-4%float
     ∧ f_leb 0x1.999999999999bp-4%float 0x1.999999999999ap-4%float = false)
  ∧ (min_mag opposite64_df "b" = Ok neg_infinity
     ∧ mean_mag opposite64_df "b" = Ok nan
     ∧ f_leb neg_infinity nan = false)
  ∧ (Mixed.min_mag big_df "b" = Ok (Mixed.IntS (2 ^ 53 + 1))
     ∧ Mixed.mean_mag big_df "b" = Ok 0x1p+53%float
     ∧ Mixed.int_to_float (2 ^ 53) = 0x1p+53%float).
Proof. split_and!; vm_compute; reflexivity. Qed.



End counterexamples.
